(** * Tree and BinaryTree (gwenphalan/data-structures)

    A shallow embedding of [src/DataStructures/Tree.ts] and
    [src/DataStructures/BinaryTree.ts], and the properties the
    specification states about them.

    Conventions of the embedding.
    - A TypeScript type [X | null] is [option X]; [None] is [null].  The
      children array [(Tree<T> | null)[]] is a [list (option (Tree V))].
      The type parameter [T] of the classes is any type; where the code
      compares a value of [T] with [null] ([search]), the values are taken
      in [option T], so that a [Tree<number | null>] is covered.
    - A method that mutates [this] returns the new [this].  The spec's
      ownership invariant (each child owned by one parent, no sharing, no
      cycles) is what makes the inductive type a model of the object graph.
      The parent back-reference, which makes the reference graph cyclic, is
      modelled on an explicit store of objects in [Module Store].
    - [number]s that count (heights, node counts) are in [Z], exact as
      long as they stay below 2^53; the values of the examples are integers,
      printed in decimal as JavaScript prints them.
    - A string is the sequence of the bytes of its UTF-8 encoding; the line
      feed is one byte and occurs in no other character, so replacing line
      feeds on the bytes is replacing them in the string.
    - A [throw new Error(msg)] is the completion [Throw msg]. *)

From Stdlib Require Import ZArith Lia Ascii String DecimalString Sorted.
From stdpp Require Import base option list sorting gmap.

Local Open Scope Z_scope.

(** ** JavaScript pieces the classes rely on *)

(** The result of a call: a normal completion or a thrown [Error] with its
    message. *)
Inductive completion (A : Type) : Type :=
| Normal (a : A)
| Throw (message : string).
Arguments Normal {A} a.
Arguments Throw {A} message.

(** The default string conversion of a template literal, [`${value}`]. *)
Class DefaultString (V : Type) := default_string : V -> string.

(** Integers print in decimal, with a leading minus sign when negative. *)
#[export] Instance Z_DefaultString : DefaultString Z :=
  fun n => NilZero.string_of_int (Z.to_int n).

(** [null] prints as ["null"]. *)
#[export] Instance option_DefaultString {T} `{DefaultString T} :
  DefaultString (option T) :=
  fun v => match v with Some x => default_string x | None => "null"%string end.

(** The line feed, ["\n"]. *)
Definition LF : string := String (ascii_of_nat 10) EmptyString.

(** [s.replace(/\n/g, by)]: every line feed of [s] is replaced. *)
Fixpoint replace_LF (by_ : string) (s : string) : string :=
  match s with
  | EmptyString => EmptyString
  | String c rest =>
      if Ascii.eqb c (ascii_of_nat 10)
      then String.append by_ (replace_LF by_ rest)
      else String c (replace_LF by_ rest)
  end.

(** [Math.max(x, ...xs)] on a non-empty argument list. *)
Definition Math_max (x : Z) (xs : list Z) : Z := fold_left Z.max xs x.

(** ** Tree<T> *)

Module Tree.

Section TreeOps.
Context {V : Type}.

#[local] Unset Elimination Schemes.
Inductive Tree : Type :=
| Node (value : V) (children : list (option Tree)).
#[local] Set Elimination Schemes.

Definition value (t : Tree) : V := match t with Node v _ => v end.
Definition children (t : Tree) : list (option Tree) :=
  match t with Node _ cs => cs end.

(** [new Tree(value, children = [])].  [value = None] is the argument
    [undefined]; [children = None] is the omitted argument. *)
Definition new (value : option V) (children : option (list (option Tree)))
  : completion Tree :=
  match value with
  | None => Throw "The value of a tree cannot be undefined."
  | Some v => Normal (Node v (default [] children))
  end.

(** [this.children.push(new Tree(value))]. *)
Definition add (v : V) (this : Tree) : Tree :=
  match this with Node x cs => Node x (cs ++ [Some (Node v [])]) end.

(** [tree.children[i].m(...)]: a mutating method [m] run on the [i]-th
    child, as the examples of the source do to build a tree. *)
Definition on_child (i : nat) (m : Tree -> Tree) (this : Tree) : Tree :=
  match this with
  | Node x cs =>
      match cs !! i with
      | Some (Some c) => Node x (<[i := Some (m c)]> cs)
      | _ => this
      end
  end.

(** [height()]: 0 when [children] is empty, which is when the array of the
    heights is; otherwise every slot is mapped to a height, an absent slot
    to 0 ([child?.height() ?? 0]), and the result is the maximum plus
    one. *)
Fixpoint height (this : Tree) : Z :=
  match this with
  | Node _ cs =>
      match map (fun child =>
                   match child with Some c => height c | None => 0 end) cs with
      | [] => 0
      | h :: hs => Math_max h hs + 1
      end
  end.

(** [invert()]: [this.children.reverse()], then every non-null child is
    inverted.  The recursion is written on the slots before they are
    reversed, which the termination check needs; [invert_eq] below gives
    the equation in the order of the source. *)
Fixpoint invert (this : Tree) : Tree :=
  match this with
  | Node x cs =>
      Node x (rev (map (fun child =>
                          match child with
                          | Some c => Some (invert c)
                          | None => None
                          end) cs))
  end.

(** The body of the [for] loop of [toString], once [child.toString()] is
    known. *)
Definition branch (lastChild : bool) (childOutput : string) : string :=
  let valuePrefix := if lastChild then "└─"%string else "├─"%string in
  let childPrefix := if lastChild then "  "%string else "│ "%string in
  String.append valuePrefix
    (replace_LF (String.append LF childPrefix) childOutput).

(** The [for] loop of [toString] over the non-null children, from index
    [i], with [len = children.length]; [outs] are the [child.toString()]
    of the children not yet visited. *)
Fixpoint toString_loop (len i : nat) (outs : list string) (output : string)
  : string :=
  match outs with
  | [] => output
  | childOutput :: rest =>
      let lastChild := Nat.eqb i (len - 1) in
      toString_loop len (S i) rest
        (String.append output (String.append LF (branch lastChild childOutput)))
  end.

(** [toString(predicate?)]: [predicate = None] is the omitted argument.
    The recursive calls are [child.toString()], without the argument;
    [outs] holds them for the non-null children, in storage order. *)
Fixpoint toString `{DefaultString V} (predicate : option (V -> string))
  (this : Tree) : string :=
  match this with
  | Node v cs =>
      let output :=
        match predicate with Some p => p v | None => default_string v end in
      let outs :=
        omap (fun child =>
                match child with
                | Some c => Some (toString None c)
                | None => None
                end) cs in
      if Nat.eqb (length outs) 0 then output
      else toString_loop (length outs) 0 outs output
  end.

(** The values of the nodes in depth-first pre-order: a node before its
    children, the children in storage order, absent slots skipped. *)
Fixpoint preorder (t : Tree) : list V :=
  match t with
  | Node v cs =>
      v :: concat (map (fun child =>
                          match child with
                          | Some c => preorder c
                          | None => []
                          end) cs)
  end.

(** The height of a slot as [height] maps it. *)
Definition slot_height (child : option Tree) : Z :=
  match child with Some c => height c | None => 0 end.

(** The non-absent children. *)
Definition present (cs : list (option Tree)) : list Tree := omap id cs.

End TreeOps.
Arguments Tree V : clear implicits.

(** [search(predicate)].  The type parameter of the class may itself
    contain [null] (a [Tree<string | null>]): the values are in
    [option T], and so is the result [T | null].  A result of a child that
    is [null] makes the loop go on. *)
Fixpoint search {T : Type} (predicate : option T -> bool)
  (this : Tree (option T)) : option T :=
  match this with
  | Node v cs =>
      if predicate v then v
      else
        (fix loop (cs : list (option (Tree (option T)))) : option T :=
           match cs with
           | [] => None
           | None :: rest => loop rest
           | Some child :: rest =>
               match search predicate child with
               | Some result => Some result
               | None => loop rest
               end
           end) cs
  end.

(** The loop of [search] over the children. *)
Definition search_children {T : Type} (predicate : option T -> bool)
  : list (option (Tree (option T))) -> option T :=
  fix loop cs :=
    match cs with
    | [] => None
    | None :: rest => loop rest
    | Some child :: rest =>
        match search predicate child with
        | Some result => Some result
        | None => loop rest
        end
    end.

(** What the spec asks of [search]: the value of the first node in
    pre-order whose value satisfies the predicate, [null] when there is
    none. *)
Definition first_preorder_match {T : Type} (predicate : option T -> bool)
  (t : Tree (option T)) : option T :=
  match find predicate (preorder t) with
  | Some v => v
  | None => None
  end.

(** The tree of the example of [toString]: root 5; 3, 7, 2 and 4 added in
    this order; 1 and 6 added to the node 3, 8 added to the node 7. *)
Definition example_tree : Tree Z :=
  on_child 1 (add 8)
    (on_child 0 (add 6)
       (on_child 0 (add 1)
          (add 4 (add 2 (add 7 (add 3 (Node 5 []))))))).

(** A [Tree<number | null>]: root 1 with the children [null] (the value)
    and 2. *)
Definition null_valued_tree : Tree (option Z) :=
  add (Some 2) (add None (Node (Some 1) [])).

(** The number of nodes of a tree. *)
Fixpoint size {V : Type} (t : Tree V) : nat :=
  match t with
  | Node _ cs =>
      S (list_sum (map (fun child =>
                          match child with Some c => size c | None => 0%nat end)
                       cs))
  end.

(** A [Tree<T>] whose values are not [null], seen as a [Tree<T | null>]:
    the same objects, for [search]. *)
Fixpoint nullable {V : Type} (t : Tree V) : Tree (option V) :=
  match t with
  | Node v cs =>
      Node (Some v)
        (map (fun child =>
                match child with Some c => Some (nullable c) | None => None end)
             cs)
  end.

(** The number of line feeds of a string: its number of lines, less
    one. *)
Fixpoint count_LF (s : string) : nat :=
  match s with
  | EmptyString => 0%nat
  | String c rest =>
      if Ascii.eqb c (ascii_of_nat 10) then S (count_LF rest)
      else count_LF rest
  end.

(** The lines under a node whose children [ws] are all leaves, given the
    strings of their values: a line ["├─w"] for each child but the last,
    whose line is ["└─w"]. *)
Fixpoint leaf_lines (ws : list string) : string :=
  match ws with
  | [] => EmptyString
  | [w] => String.append LF (String.append "└─" w)
  | w :: rest =>
      String.append LF (String.append "├─" (String.append w (leaf_lines rest)))
  end.

(** The lines of a string: the pieces between its line feeds. *)
Fixpoint split_lines (s : string) : list string :=
  match s with
  | EmptyString => [EmptyString]
  | String c rest =>
      if Ascii.eqb c (ascii_of_nat 10) then EmptyString :: split_lines rest
      else
        match split_lines rest with
        | l :: ls => String c l :: ls
        | [] => [String c EmptyString]
        end
  end.

(** Every line of [ls] after a line feed. *)
Fixpoint lines_after (ls : list string) : string :=
  match ls with
  | [] => EmptyString
  | l :: rest => String.append LF (String.append l (lines_after rest))
  end.

(** The lines [ls] with a line feed between them. *)
Definition join_lines (ls : list string) : string :=
  match ls with
  | [] => EmptyString
  | l :: rest => String.append l (lines_after rest)
  end.

(** A block of lines with [first] before its first line and [other] before
    every subsequent line. *)
Definition prefix_block (first other : string) (block : list string)
  : list string :=
  match block with
  | [] => []
  | l :: ls => String.append first l :: map (String.append other) ls
  end.

(** The rendering rule of the spec (4.1), line by line, with one
    conversion for the value of the node, [root], and one for the values of
    all the nodes below it, [descendant].  The first lines are the rendered
    value of the node.  Then comes the block of every non-absent child, in
    storage order, rendered with [descendant] throughout: the block of the
    last non-absent child has ["└─"] before its first line and two spaces
    before every subsequent line, the block of every other one ["├─"] and
    ["│ "]. *)
Fixpoint rendered_lines {V : Type} (root descendant : V -> string)
  (t : Tree V) : list string :=
  match t with
  | Node v cs =>
      split_lines (root v) ++
      (fix blocks (cs : list (option (Tree V))) : list string :=
         match cs with
         | [] => []
         | None :: rest => blocks rest
         | Some c :: rest =>
             let last := match present rest with [] => true | _ => false end in
             prefix_block (if last then "└─" else "├─")
               (if last then "  " else "│ ")
               (rendered_lines descendant descendant c)
             ++ blocks rest
         end) cs
  end.

(** The blocks of the children in [rendered_lines]. *)
Definition child_blocks {V : Type} (descendant : V -> string)
  : list (option (Tree V)) -> list string :=
  fix blocks cs :=
    match cs with
    | [] => []
    | None :: rest => blocks rest
    | Some c :: rest =>
        let last := match present rest with [] => true | _ => false end in
        prefix_block (if last then "└─" else "├─")
          (if last then "  " else "│ ")
          (rendered_lines descendant descendant c)
        ++ blocks rest
    end.

End Tree.

(** ** BinaryTree<T> *)

(** The comparison [a < b] of the values; [a > b] is [b < a]. *)
Class Less (T : Type) := js_lt : T -> T -> bool.

(** [insert] requires the comparison to be a strict total order. *)
Class StrictTotal (T : Type) `{Less T} : Prop := {
  js_lt_irrefl : forall a : T, js_lt a a = false;
  js_lt_trans : forall a b c : T,
    js_lt a b = true -> js_lt b c = true -> js_lt a c = true;
  js_lt_total : forall a b : T,
    js_lt a b = false -> js_lt b a = false -> a = b
}.

#[export] Instance Z_Less : Less Z := Z.ltb.

Module BinaryTree.

Section BinaryTreeOps.
Context {T : Type} {less : Less T}.

(** The children array of a BinaryTree is [[left, right]] from the
    constructor on, and the setters write the slots 0 and 1 only: the two
    slots are the fields of the node. *)
#[local] Unset Elimination Schemes.
Inductive BinaryTree : Type :=
| BNode (value : T) (left right : option BinaryTree).
#[local] Set Elimination Schemes.

Definition value (b : BinaryTree) : T := match b with BNode v _ _ => v end.
Definition left (b : BinaryTree) : option BinaryTree :=
  match b with BNode _ l _ => l end.
Definition right (b : BinaryTree) : option BinaryTree :=
  match b with BNode _ _ r => r end.

(** A BinaryTree seen as the Tree it extends: [children = [left, right]]. *)
Fixpoint as_Tree (b : BinaryTree) : Tree.Tree T :=
  match b with
  | BNode v l r =>
      Tree.Node v
        [ match l with Some c => Some (as_Tree c) | None => None end;
          match r with Some c => Some (as_Tree c) | None => None end ]
  end.

(** [new BinaryTree(value, left = null, right = null)]: [super(value)],
    then [this.children = [left, right]]. *)
Definition new (value : option T) (left right : option BinaryTree)
  : completion BinaryTree :=
  match @Tree.new T value None with
  | Throw message => Throw message
  | Normal super => Normal (BNode (Tree.value super) left right)
  end.

(** [insert(value)]; [BNode v None None] is [new BinaryTree(value)]. *)
Fixpoint insert (v : T) (this : BinaryTree) : BinaryTree :=
  match this with
  | BNode x l r =>
      if js_lt v x then
        match l with
        | None => BNode x (Some (BNode v None None)) r
        | Some c => BNode x (Some (insert v c)) r
        end
      else if js_lt x v then
        match r with
        | None => BNode x l (Some (BNode v None None))
        | Some c => BNode x l (Some (insert v c))
        end
      else this
  end.

Fixpoint leftMost (this : BinaryTree) : BinaryTree :=
  match this with
  | BNode _ None _ => this
  | BNode _ (Some c) _ => leftMost c
  end.

Fixpoint rightMost (this : BinaryTree) : BinaryTree :=
  match this with
  | BNode _ _ None => this
  | BNode _ _ (Some c) => rightMost c
  end.

(** [add()]: whatever the arguments, throws and leaves [this] as it is. *)
Definition add (args : list T) (this : BinaryTree)
  : completion unit * BinaryTree :=
  (Throw "BinaryTree.add is not a function. Use BinaryTree.insert instead.",
   this).

(** [height()] is inherited from Tree. *)
Definition height (this : BinaryTree) : Z := Tree.height (as_Tree this).

(** [maxNodes()]: [Math.pow(2, this.height() + 1) - 1]. *)
Definition maxNodes (this : BinaryTree) : Z := 2 ^ (height this + 1) - 1.

(** The tree after [new BinaryTree(v0)] and [insert] of every value of
    [vs], in order. *)
Definition build (v0 : T) (vs : list T) : BinaryTree :=
  fold_left (fun this v => insert v this) vs (BNode v0 None None).

(** In-order traversal (spec, glossary): left subtree, node, right
    subtree. *)
Fixpoint inorder (b : BinaryTree) : list T :=
  match b with
  | BNode v l r =>
      match l with Some c => inorder c | None => [] end
      ++ v :: match r with Some c => inorder c | None => [] end
  end.

(** BST invariant (spec, glossary): at every node, every value of the left
    subtree is less than the node's value, which is less than every value
    of the right subtree. *)
Fixpoint BST (b : BinaryTree) : Prop :=
  match b with
  | BNode v l r =>
      match l with
      | Some c => Forall (fun x => js_lt x v = true) (inorder c) /\ BST c
      | None => True
      end /\
      match r with
      | Some c => Forall (fun x => js_lt v x = true) (inorder c) /\ BST c
      | None => True
      end
  end.

(** [invert()], inherited from Tree, on the slots [[left, right]]: they
    are swapped, and each present child is inverted. *)
Fixpoint invert (this : BinaryTree) : BinaryTree :=
  match this with
  | BNode v l r =>
      BNode v
        (match r with Some c => Some (invert c) | None => None end)
        (match l with Some c => Some (invert c) | None => None end)
  end.

(** The number of nodes. *)
Fixpoint size (b : BinaryTree) : nat :=
  match b with
  | BNode _ l r =>
      S ((match l with Some c => size c | None => 0%nat end) +
         (match r with Some c => size c | None => 0%nat end))
  end.

End BinaryTreeOps.
Arguments BinaryTree T : clear implicits.

End BinaryTree.

(** ** The objects of a BinaryTree, with the parent back-reference

    [value.parent = this] makes the reference graph cyclic: the objects
    live in a store, and the slots and the back-reference hold locations. *)

Module Store.

Definition loc := nat.

Section Objects.
Context {T : Type} {less : Less T}.

(** [parent = None] is the property that was never assigned
    ([undefined]). *)
Record object : Type := Object {
  value : T;
  children : list (option loc);
  parent : option loc
}.

#[local] Abbreviation store := (gmap loc object).

(** [new BinaryTree(value, left, right)]. *)
Definition new (v : option T) (left right : option loc) (σ : store)
  : completion loc * store :=
  match v with
  | None => (Throw "The value of a tree cannot be undefined.", σ)
  | Some x =>
      let this := fresh (dom σ) in
      (Normal this, <[this := Object x [left; right] None]> σ)
  end.

(** [this.children[i]]: [None] is [undefined]. *)
Definition slot (i : nat) (this : loc) (σ : store) : option (option loc) :=
  o ← σ !! this; children o !! i.

Definition get_left (this : loc) (σ : store) := slot 0 this σ.
Definition get_right (this : loc) (σ : store) := slot 1 this σ.

Definition write_parent (p : loc) (o : object) : object :=
  Object (value o) (children o) (Some p).
Definition write_slot (i : nat) (v : option loc) (o : object) : object :=
  Object (value o) (<[i := v]> (children o)) (parent o).

(** [set left(value)]: [if (value) value.parent = this;
    this.children[0] = value]. *)
Definition set_left (this : loc) (v : option loc) (σ : store) : store :=
  let σ1 := match v with
            | Some c => alter (write_parent this) c σ
            | None => σ
            end in
  alter (write_slot 0 v) this σ1.

(** [set right(value)]. *)
Definition set_right (this : loc) (v : option loc) (σ : store) : store :=
  let σ1 := match v with
            | Some c => alter (write_parent this) c σ
            | None => σ
            end in
  alter (write_slot 1 v) this σ1.

(** [c.parent]. *)
Definition parent_of (c : loc) (σ : store) : option loc :=
  o ← σ !! c; parent o.

(** [insert(value)] on the objects.  [fuel] bounds the depth of the
    recursion; the result is [None] when it runs out.  Reading a slot of
    [undefined] is a TypeError. *)
Fixpoint insert (fuel : nat) (v : T) (this : loc) (σ : store)
  : option (completion unit * store) :=
  match fuel with
  | O => None
  | S fuel =>
      match σ !! this with
      | None => Some (Throw "TypeError", σ)
      | Some o =>
          if js_lt v (value o) then
            match children o !! 0%nat with
            | Some None =>
                match new (Some v) None None σ with
                | (Normal c, σ1) => Some (Normal tt, set_left this (Some c) σ1)
                | (Throw message, σ1) => Some (Throw message, σ1)
                end
            | Some (Some c) => insert fuel v c σ
            | None => Some (Throw "TypeError", σ)
            end
          else if js_lt (value o) v then
            match children o !! 1%nat with
            | Some None =>
                match new (Some v) None None σ with
                | (Normal c, σ1) => Some (Normal tt, set_right this (Some c) σ1)
                | (Throw message, σ1) => Some (Throw message, σ1)
                end
            | Some (Some c) => insert fuel v c σ
            | None => Some (Throw "TypeError", σ)
            end
          else Some (Normal tt, σ)
      end
  end.

(** [insert] of every value of [vs] in order, on the object [this]. *)
Fixpoint insert_all (fuel : nat) (vs : list T) (this : loc) (σ : store)
  : option store :=
  match vs with
  | [] => Some σ
  | v :: vs =>
      match insert fuel v this σ with
      | Some (Normal _, σ') => insert_all fuel vs this σ'
      | _ => None
      end
  end.

(** The number of levels of a tree: a bound on the depth of the recursion
    of [insert]. *)
Fixpoint levels (b : BinaryTree.BinaryTree T) : nat :=
  match b with
  | BinaryTree.BNode _ l r =>
      S (Nat.max (match l with Some c => levels c | None => 0%nat end)
                 (match r with Some c => levels c | None => 0%nat end))
  end.

(** The objects at the locations [D] of the store, from [this] down, are
    the tree [b]: the values and the slots are those of [b], no object is
    reached twice, and every child refers back to its parent. *)
Fixpoint repr (σ : store) (b : BinaryTree.BinaryTree T) (this : loc)
  (D : gset loc) : Prop :=
  match b with
  | BinaryTree.BNode v bl br =>
      exists (l r p : option loc) (Dl Dr : gset loc),
        σ !! this = Some (Object v [l; r] p) /\
        D = {[this]} ∪ Dl ∪ Dr /\
        (this ∉ Dl) /\ (this ∉ Dr) /\ (Dl ## Dr) /\
        match bl, l with
        | None, None => Dl = ∅
        | Some c, Some lc => parent_of lc σ = Some this /\ repr σ c lc Dl
        | _, _ => False
        end /\
        match br, r with
        | None, None => Dr = ∅
        | Some c, Some rc => parent_of rc σ = Some this /\ repr σ c rc Dr
        | _, _ => False
        end
  end.

End Objects.
Arguments object T : clear implicits.

End Store.

(** ** The family of [example.ts] *)

Module Example.

(** [class Person]; [middleName] and [gender] start as [null]. *)
Record Person : Type := {
  firstName : string;
  middleName : option string;
  lastName : string;
  age : Z;
  gender : option bool
}.

(** [new Person(firstName, lastName, age)]. *)
Definition new_Person (firstName lastName : string) (age : Z) : Person :=
  {| firstName := firstName; middleName := None; lastName := lastName;
     age := age; gender := None |}.

(** [Person.toString()]: [`${this.firstName} ${this.lastName}`]. *)
Definition Person_toString (p : Person) : string :=
  String.append (firstName p) (String.append " " (lastName p)).

(** A template literal converts an object with its [toString()]. *)
#[export] Instance Person_DefaultString : DefaultString Person :=
  Person_toString.

(** [class Family extends Tree<Person>]: the tree it extends, whose value
    is the mother, and the two fields.  The children are the Trees that
    [add] makes. *)
Record Family : Type := {
  super : Tree.Tree Person;
  mother : Person;
  father : Person
}.

(** [new Family(mother, father, children = [])]. *)
Definition new_Family (mother father : Person)
  (children : option (list (option (Tree.Tree Person)))) : Family :=
  {| super := Tree.Node mother (default [] children);
     mother := mother; father := father |}.

(** [Family.add(child)]: [this.children.push(new Tree(child))]. *)
Definition Family_add (child : Person) (this : Family) : Family :=
  match super this with
  | Tree.Node x cs =>
      {| super := Tree.Node x (cs ++ [Some (Tree.Node child [])]);
         mother := mother this; father := father this |}
  end.

(** [Family.toString()]:
    [`${this.father.toString()}\n| \n${super.toString(c => c.toString())}`]. *)
Definition Family_toString (this : Family) : string :=
  String.append (Person_toString (father this))
    (String.append LF
       (String.append "| "
          (String.append LF
             (Tree.toString (Some (fun c => Person_toString c))
                (super this))))).

End Example.

(** * Properties *)

(** ** Tree *)

Module TreeFacts.
Import Tree.

Section Induction.
Context {V : Type}.

(** Induction on a tree, with the property known for every present
    child. *)
Lemma Tree_ind (P : Tree V -> Prop) :
  (forall v cs,
      Forall (fun c => match c with Some t => P t | None => True end) cs ->
      P (Node v cs)) ->
  forall t, P t.
Proof.
  intros step. fix rec 1. intros [v cs]. apply step.
  induction cs as [|[c|] cs IHcs]; constructor; auto.
Qed.

End Induction.

Section Height.
Context {V : Type}.
Implicit Types (t : Tree V) (cs : list (option (Tree V))).

Lemma height_eq v cs :
  height (Node v cs) =
  match map slot_height cs with
  | [] => 0
  | h :: hs => Math_max h hs + 1
  end.
Proof. reflexivity. Qed.

Lemma Math_max_ge x xs : x <= Math_max x xs.
Proof.
  unfold Math_max. revert x.
  induction xs as [|y ys IH]; intros x; simpl; [lia|].
  specialize (IH (Z.max x y)). lia.
Qed.

Lemma Math_max_foldr x xs :
  0 <= x -> Math_max x xs = foldr Z.max 0 (x :: xs).
Proof.
  unfold Math_max. revert x.
  induction xs as [|y ys IH]; intros x Hx; simpl.
  - lia.
  - rewrite IH by lia. simpl. lia.
Qed.

Lemma height_nonneg t : 0 <= height t.
Proof.
  induction t as [v cs IH] using Tree_ind. rewrite height_eq.
  destruct cs as [|c cs]; simpl; [lia|].
  assert (0 <= slot_height c) as Hc.
  { apply Forall_cons_1 in IH as [Hc _]. destruct c; simpl; [done | lia]. }
  pose proof (Math_max_ge (slot_height c) (map slot_height cs)). lia.
Qed.

Lemma slot_height_nonneg (c : option (Tree V)) : 0 <= slot_height c.
Proof. destruct c; simpl; [apply height_nonneg | lia]. Qed.

Lemma foldr_max_nonneg (l : list Z) : 0 <= foldr Z.max 0 l.
Proof. induction l; simpl; lia. Qed.

Lemma foldr_max_present cs :
  foldr Z.max 0 (map slot_height cs) = foldr Z.max 0 (map height (present cs)).
Proof.
  induction cs as [|[c|] cs IH]; simpl; [done| |].
  - unfold present in *. simpl. by rewrite IH.
  - unfold present in *. simpl. rewrite IH.
    pose proof (foldr_max_nonneg (map height (omap id cs))). lia.
Qed.

(** A node without slots has height 0. *)
Lemma height_leaf v : height (Node v ([] : list (option (Tree V)))) = 0.
Proof. reflexivity. Qed.

(** A node with a slot has height one more than the maximum of 0 and the
    heights of its non-absent children. *)
Lemma height_slots v cs :
  cs <> [] ->
  height (Node v cs) = 1 + foldr Z.max 0 (map height (present cs)).
Proof.
  intros Hcs. rewrite <- foldr_max_present.
  destruct cs as [|c cs]; [done|]. rewrite height_eq.
  change (map slot_height (c :: cs))
    with (slot_height c :: map slot_height cs).
  cbv beta iota. rewrite Math_max_foldr by apply slot_height_nonneg. lia.
Qed.

(** With a non-absent child, that maximum is the height of one of them and
    bounds the height of each. *)
Lemma foldr_max_is_max (l : list Z) :
  l <> [] -> Forall (fun x => 0 <= x) l ->
  foldr Z.max 0 l ∈ l /\ Forall (fun x => x <= foldr Z.max 0 l) l.
Proof.
  induction l as [|x l IH]; [done|]. intros _ Hl.
  apply Forall_cons_1 in Hl as [Hx Hl]. destruct l as [|y l].
  - simpl. split; [|repeat constructor; lia].
    replace (Z.max x 0) with x by lia. left.
  - destruct IH as [Hin Hle]; [done..|]. split.
    + change (foldr Z.max 0 (x :: y :: l))
        with (Z.max x (foldr Z.max 0 (y :: l))).
      destruct (Z.max_spec x (foldr Z.max 0 (y :: l))) as [[_ ->]|[_ ->]];
        [by right | left].
    + change (foldr Z.max 0 (x :: y :: l))
        with (Z.max x (foldr Z.max 0 (y :: l))).
      constructor; [lia|]. eapply Forall_impl; [exact Hle|].
      intros z Hz. cbv beta in Hz. lia.
Qed.

Lemma height_present_child v cs :
  present cs <> [] ->
  (exists c, c ∈ present cs /\ height (Node v cs) = 1 + height c) /\
  (forall c, c ∈ present cs -> 1 + height c <= height (Node v cs)).
Proof.
  intros Hp. assert (cs <> []) as Hcs by (by intros ->).
  rewrite (height_slots v cs Hcs).
  destruct (foldr_max_is_max (map height (present cs))) as [Hin Hle].
  { by destruct (present cs). }
  { apply Forall_fmap, Forall_forall. intros c _. apply height_nonneg. }
  split.
  - apply list_elem_of_fmap in Hin as (c & Hc & Hin). exists c.
    split; [done | lia].
  - intros c Hc. rewrite Forall_fmap, Forall_forall in Hle.
    specialize (Hle c Hc). simpl in Hle. lia.
Qed.

(** A node whose slots are all absent, and which has one, has height 1. *)
Lemma height_absent_slots v cs :
  cs <> [] -> present cs = [] -> height (Node v cs) = 1.
Proof. intros Hcs Hp. rewrite height_slots, Hp by done. reflexivity. Qed.

(** A fresh Tree has height 0, and after [add] height 1. *)
Lemma height_new_add (v w : V) :
  height (Node v []) = 0 /\ height (add w (Node v [])) = 1.
Proof. split; reflexivity. Qed.

End Height.

Section Invert.
Context {V : Type}.
Implicit Types (t : Tree V) (cs : list (option (Tree V))).

(** [invert] in the order of the source: the slots are reversed, then each
    present child is inverted. *)
Lemma invert_eq v cs :
  invert (Node v cs) = Node v (map (fmap invert) (rev cs)).
Proof. simpl. by rewrite map_rev. Qed.

Lemma invert_invert t : invert (invert t) = t.
Proof.
  induction t as [v cs IH] using Tree_ind.
  rewrite !invert_eq. f_equal.
  rewrite map_rev, map_map, map_rev, rev_involutive.
  induction IH as [|c cs Hc _ IHcs]; simpl; [done|].
  f_equal; [|done]. destruct c; simpl; [by rewrite Hc | done].
Qed.

Lemma invert_value t : value (invert t) = value t.
Proof. by destruct t. Qed.

Lemma preorder_eq v cs :
  preorder (Node v cs) = v :: flat_map (from_option preorder []) cs.
Proof. simpl. by rewrite flat_map_concat_map. Qed.

Lemma invert_preorder t : preorder (invert t) ≡ₚ preorder t.
Proof.
  induction t as [v cs IH] using Tree_ind.
  rewrite invert_eq, !preorder_eq. constructor.
  rewrite map_rev, <- Permutation_rev.
  induction IH as [|c cs Hc _ IHcs]; simpl; [done|].
  apply Permutation_app; [|done]. destruct c; simpl; done.
Qed.

End Invert.

Section Search.
Context {T : Type}.
Implicit Types (p : option T -> bool) (t : Tree (option T)).

Lemma search_eq p v cs :
  search p (Node v cs) = if p v then v else search_children p cs.
Proof. reflexivity. Qed.

Lemma find_app_split {A} (f : A -> bool) (l1 l2 : list A) :
  find f (l1 ++ l2) =
  match find f l1 with Some x => Some x | None => find f l2 end.
Proof. induction l1 as [|x l1 IH]; simpl; [done|]. by destruct (f x). Qed.

(** [search] returns the first pre-order match whenever the value of that
    match is not [null]; in particular it returns [null] when no node
    matches. *)
Lemma search_first_match p t :
  find p (preorder t) <> Some None ->
  search p t = first_preorder_match p t.
Proof.
  unfold first_preorder_match.
  induction t as [v cs IH] using Tree_ind.
  rewrite search_eq, preorder_eq. simpl find.
  destruct (p v); [done|].
  induction IH as [|c cs Hc _ IHcs]; simpl; [done|].
  rewrite find_app_split. intros Hne. destruct c as [c|]; simpl in *.
  - destruct (find p (preorder c)) as [x|] eqn:E.
    + rewrite Hc by congruence. destruct x; [done | congruence].
    + rewrite Hc by congruence. by apply IHcs.
  - by apply IHcs.
Qed.

Lemma search_not_found p t :
  Forall (fun v => p v = false) (preorder t) -> search p t = None.
Proof.
  intros Hall. rewrite search_first_match; unfold first_preorder_match.
  - destruct (find p (preorder t)) as [x|] eqn:E; [|done].
    apply find_some in E as [Hin Hp]. rewrite Forall_forall in Hall.
    apply list_elem_of_In, Hall in Hin. congruence.
  - intros E. apply find_some in E as [Hin Hp]. rewrite Forall_forall in Hall.
    apply list_elem_of_In, Hall in Hin. congruence.
Qed.

Lemma search_null_free p t :
  Forall is_Some (preorder t) -> search p t = first_preorder_match p t.
Proof.
  intros Hall. apply search_first_match. intros E.
  apply find_some in E as [Hin _]. rewrite Forall_forall in Hall.
  apply list_elem_of_In, Hall in Hin. by destruct Hin.
Qed.

End Search.

(** C5: on the tree with root 1 and the children [null] and 2, with the
    predicate "is not 1", the first node in pre-order that satisfies the
    predicate is the child of value [null]; its result [null] is taken for
    "not found", the loop goes on, and [search] returns 2. *)
Theorem search_skips_null_match :
  let p := fun v : option Z => negb (bool_decide (v = Some 1)) in
  search p null_valued_tree = Some 2 /\
  find p (preorder null_valued_tree) = Some None /\
  first_preorder_match p null_valued_tree = None.
Proof. repeat split. Qed.

Section ToString.
Context {V : Type} `{DefaultString V}.
Implicit Types (t : Tree V) (cs : list (option (Tree V))).

Lemma append_assoc (a b c : string) :
  String.append (String.append a b) c = String.append a (String.append b c).
Proof.
  induction a as [|x a IH]; [done|].
  change (String x (String.append (String.append a b) c) =
          String x (String.append a (String.append b c))).
  by rewrite IH.
Qed.

Lemma append_empty_r (a : string) : String.append a EmptyString = a.
Proof.
  induction a as [|x a IH]; [done|].
  change (String x (String.append a EmptyString) = String x a).
  by rewrite IH.
Qed.

Lemma toString_loop_append len i outs a b :
  toString_loop len i outs (String.append a b) =
  String.append a (toString_loop len i outs b).
Proof.
  revert i b. induction outs as [|o outs IH]; intros i b; simpl; [done|].
  by rewrite append_assoc, IH.
Qed.

(** With a custom renderer the output is the renderer's string for the
    root value followed by exactly what follows the root value in the
    output without a renderer. *)
Lemma toString_same_descendants (renderer : V -> string) v cs :
  exists descendants : string,
    toString (Some renderer) (Node v cs) =
      String.append (renderer v) descendants /\
    toString None (Node v cs) =
      String.append (default_string v) descendants.
Proof.
  simpl.
  set (outs := omap _ cs).
  destruct (Nat.eqb (length outs) 0).
  - exists EmptyString. by rewrite !append_empty_r.
  - exists (toString_loop (length outs) 0 outs EmptyString).
    rewrite <- !toString_loop_append. by rewrite !append_empty_r.
Qed.

End ToString.

(** The renderer reaches the root only: the child 3 is printed by the
    default conversion. *)
Example toString_renderer_example :
  toString (Some (fun n : Z => String.append "#" (default_string n)))
    (add 3 (Node 5 [])) =
  "#5
└─3"%string.
Proof. reflexivity. Qed.

(** C3 (as the code has it): the example tree has the four children 3, 7,
    2 and 4, and [toString()] prints eight lines, the last child being
    4. *)
Theorem toString_example :
  toString None example_tree =
  "5
├─3
│ ├─1
│ └─6
├─7
│ └─8
├─2
└─4"%string.
Proof. reflexivity. Qed.

(** C3 (as stated): the output is not the seven lines that end with 2 as
    the last child. *)
Lemma toString_example_not_seven_lines :
  toString None example_tree <>
  "5
├─3
│ ├─1
│ └─6
├─7
│ └─8
└─2"%string.
Proof. intros E. apply (f_equal String.length) in E. discriminate E. Qed.

Section Structure.
Context {V : Type}.

(** C8: inverting twice gives back the tree, children in their original
    order at every node; [invert] keeps the value of the node it is called
    on, mirrors the slots (reversed, each present child inverted), and the
    values of the tree are the same ones. *)
Theorem invert_involution (t : Tree V) :
  invert (invert t) = t /\
  value (invert t) = value t /\
  children (invert t) = map (fmap invert) (rev (children t)) /\
  preorder (invert t) ≡ₚ preorder t.
Proof.
  split; [apply invert_invert|]. split; [apply invert_value|].
  split; [|apply invert_preorder].
  destruct t as [v cs]. by rewrite invert_eq.
Qed.

(** C9: the constructor throws when the value is [undefined], whatever the
    children, and returns no node; with a value it returns the node with
    that value and the children as given ([[]] when omitted). *)
Theorem new_value_required (v : V) (cs : list (option (Tree V)))
  (children : option (list (option (Tree V)))) :
  new None children = Throw "The value of a tree cannot be undefined." /\
  new (Some v) (Some cs) = Normal (Node v cs) /\
  new (Some v) None = Normal (Node v []).
Proof. repeat split. Qed.

End Structure.

End TreeFacts.

(** ** BinaryTree *)

(** The integers under [<] are a strict total order. *)
#[export] Instance Z_StrictTotal : StrictTotal Z.
Proof.
  split; unfold js_lt, Z_Less.
  - intros a. apply Z.ltb_irrefl.
  - intros a b c ?%Z.ltb_lt ?%Z.ltb_lt. apply Z.ltb_lt. lia.
  - intros a b ?%Z.ltb_ge ?%Z.ltb_ge. lia.
Qed.

Module BinaryTreeFacts.
Import BinaryTree.

Section Induction.
Context {T : Type}.

Lemma BinaryTree_ind (P : BinaryTree T -> Prop) :
  (forall v l r,
      (forall c, l = Some c -> P c) ->
      (forall c, r = Some c -> P c) ->
      P (BNode v l r)) ->
  forall b, P b.
Proof.
  intros step. fix rec 1. intros [v l r]. apply step.
  - destruct l as [c'|]; intros c [= <-]. apply rec.
  - destruct r as [c'|]; intros c [= <-]. apply rec.
Qed.

End Induction.

Section Height.
Context {T : Type}.

(** C1: a BinaryTree without children has the two slots [[null, null]];
    both are mapped to 0, and [height()] is 1, not 0.  With one child
    inserted it is 2. *)
Theorem height_childless_BinaryTree (v w : T) :
  new (Some v) None None = Normal (BNode v None None) /\
  as_Tree (BNode v None None) = Tree.Node v [None; None] /\
  height (BNode v None None) = 1 /\
  height (BNode v (Some (BNode w None None)) None) = 2.
Proof. repeat split. Qed.

Lemma maxNodes_eq (b : BinaryTree T) : maxNodes b = 2 ^ (height b + 1) - 1.
Proof. reflexivity. Qed.

(** C6: [add] throws, with the message that names [insert], in every
    state of the tree and for all arguments, and the tree is as before. *)
Theorem add_throws (args : list T) (this : BinaryTree T) :
  add args this =
  (Throw "BinaryTree.add is not a function. Use BinaryTree.insert instead.",
   this).
Proof. reflexivity. Qed.

End Height.

(** C2: the tree built from 5 by inserting 3, 7, 2, 4, 6 (and 5 itself,
    which changes nothing) has [height()] 3, the leaves counting for 1, and
    [maxNodes()] is 15, not 7. *)
Theorem maxNodes_example :
  build 5 [5; 3; 7; 2; 4; 6] = build 5 [3; 7; 2; 4; 6] /\
  build 5 [3; 7; 2; 4; 6] =
    BNode 5
      (Some (BNode 3 (Some (BNode 2 None None)) (Some (BNode 4 None None))))
      (Some (BNode 7 (Some (BNode 6 None None)) None)) /\
  height (build 5 [3; 7; 2; 4; 6]) = 3 /\
  maxNodes (build 5 [3; 7; 2; 4; 6]) = 15.
Proof. repeat split. Qed.

Section Insert.
Context {T : Type} {less : Less T} {order : StrictTotal T}.
Implicit Types (b c : BinaryTree T) (v x : T).

#[local] Abbreviation lt := (fun a b : T => js_lt a b = true).
#[local] Abbreviation values := (from_option inorder []).

Lemma inorder_eq v l r :
  inorder (BNode v l r) = values l ++ v :: values r.
Proof. by destruct l, r. Qed.

Lemma BST_eq v l r :
  BST (BNode v l r) <->
  (Forall (fun x => js_lt x v = true) (values l) /\
   Forall (fun x => js_lt v x = true) (values r)) /\
  (forall c, l = Some c -> BST c) /\ (forall c, r = Some c -> BST c).
Proof.
  destruct l, r; simpl; split; intros; destruct_and?; split_and?;
    try done; try (intros ? [= <-]; done); eauto.
Qed.

Lemma insert_eq v x l r :
  insert v (BNode x l r) =
  if js_lt v x then BNode x (Some (from_option (insert v) (BNode v None None) l)) r
  else if js_lt x v then
         BNode x l (Some (from_option (insert v) (BNode v None None) r))
  else BNode x l r.
Proof. simpl. by destruct l, r. Qed.

Lemma inorder_insert v b x :
  x ∈ inorder (insert v b) <-> x = v \/ x ∈ inorder b.
Proof.
  induction b as [y l r IHl IHr] using BinaryTree_ind.
  rewrite insert_eq.
  destruct (js_lt v y) eqn:Hvy; [|destruct (js_lt y v) eqn:Hyv].
  - rewrite !inorder_eq. simpl. destruct l as [c|]; simpl.
    + rewrite !elem_of_app, (IHl c eq_refl). tauto.
    + rewrite ?elem_of_app, ?elem_of_cons, ?elem_of_nil. tauto.
  - rewrite !inorder_eq. simpl. destruct r as [c|]; simpl.
    + rewrite !elem_of_app, !elem_of_cons, (IHr c eq_refl). tauto.
    + rewrite ?elem_of_app, ?elem_of_cons, ?elem_of_nil. tauto.
  - rewrite (js_lt_total v y Hvy Hyv). rewrite inorder_eq, elem_of_app, elem_of_cons.
    tauto.
Qed.

Lemma BST_insert v b : BST b -> BST (insert v b).
Proof.
  induction b as [y l r IHl IHr] using BinaryTree_ind.
  rewrite insert_eq, BST_eq. intros ((Hl & Hr) & Hbl & Hbr).
  destruct (js_lt v y) eqn:Hvy; [|destruct (js_lt y v) eqn:Hyv].
  - apply BST_eq. split_and!; try done.
    + destruct l as [c|]; simpl in *.
      * apply Forall_forall. intros x [->|Hx]%inorder_insert; [done|].
        rewrite Forall_forall in Hl. by apply Hl.
      * by repeat constructor.
    + intros c [= <-]. destruct l as [c|]; simpl; [|done].
      apply (IHl c eq_refl), Hbl; done.
  - apply BST_eq. split_and!; try done.
    + destruct r as [c|]; simpl in *.
      * apply Forall_forall. intros x [->|Hx]%inorder_insert; [done|].
        rewrite Forall_forall in Hr. by apply Hr.
      * by repeat constructor.
    + intros c [= <-]. destruct r as [c|]; simpl; [|done].
      apply (IHr c eq_refl), Hbr; done.
  - by apply BST_eq.
Qed.

(** A value already in the tree is dropped: [insert] changes nothing. *)
Lemma insert_duplicate v b : BST b -> v ∈ inorder b -> insert v b = b.
Proof.
  induction b as [y l r IHl IHr] using BinaryTree_ind.
  rewrite insert_eq, BST_eq, inorder_eq, elem_of_app, elem_of_cons.
  intros ((Hl & Hr) & Hbl & Hbr) Hin.
  rewrite Forall_forall in Hl, Hr.
  destruct (js_lt v y) eqn:Hvy; [|destruct (js_lt y v) eqn:Hyv]; [| |done].
  - destruct Hin as [Hin|[->|Hin]].
    + destruct l as [c|]; simpl in *; [|by apply elem_of_nil in Hin].
      by rewrite (IHl c eq_refl) by eauto.
    + by rewrite js_lt_irrefl in Hvy.
    + apply Hr in Hin. pose proof (js_lt_trans _ _ _ Hvy Hin) as Hvv.
      by rewrite js_lt_irrefl in Hvv.
  - destruct Hin as [Hin|[->|Hin]].
    + apply Hl in Hin. pose proof (js_lt_trans _ _ _ Hyv Hin) as Hyy.
      by rewrite js_lt_irrefl in Hyy.
    + by rewrite js_lt_irrefl in Hyv.
    + destruct r as [c|]; simpl in *; [|by apply elem_of_nil in Hin].
      by rewrite (IHr c eq_refl) by eauto.
Qed.

(** The in-order traversal of a tree with the BST invariant is strictly
    increasing. *)
Lemma BST_sorted b : BST b -> StronglySorted lt (inorder b).
Proof.
  induction b as [y l r IHl IHr] using BinaryTree_ind.
  rewrite BST_eq, inorder_eq. intros ((Hl & Hr) & Hbl & Hbr).
  rewrite Forall_forall in Hl, Hr.
  apply StronglySorted_app_2.
  - intros x1 x2 Hx1 [->|Hx2]%elem_of_cons; [by apply Hl|].
    eapply js_lt_trans; [by apply Hl | by apply Hr].
  - destruct l as [c|]; simpl; [by apply (IHl c), Hbl | constructor].
  - constructor; [|by apply Forall_forall].
    destruct r as [c|]; simpl; [by apply (IHr c), Hbr | constructor].
Qed.

Lemma build_from b vs :
  BST b ->
  let t := fold_left (fun this v => insert v this) vs b in
  BST t /\ forall x, x ∈ inorder t <-> x ∈ inorder b \/ x ∈ vs.
Proof.
  revert b. induction vs as [|v vs IH]; intros b Hb; simpl.
  - split; [done|]. intros x. rewrite elem_of_nil. tauto.
  - destruct (IH (insert v b) (BST_insert v b Hb)) as [Ht Hin].
    split; [done|]. intros x. rewrite Hin, inorder_insert, elem_of_cons. tauto.
Qed.

(** C4: after [new BinaryTree(v0)] and the insertion of [vs], in any order
    and with any repetitions, the BST invariant holds at every node;
    inserting a value the tree holds leaves it unchanged; the in-order
    traversal is strictly increasing (so without duplicates) and holds
    exactly the values [v0 :: vs]. *)
Theorem insert_sequence (v0 : T) (vs : list T) :
  let t := build v0 vs in
  BST t /\
  (forall v, v ∈ inorder t -> insert v t = t) /\
  StronglySorted lt (inorder t) /\
  (forall v, v ∈ inorder t <-> v ∈ v0 :: vs).
Proof.
  destruct (build_from (BNode v0 None None) vs) as [Ht Hin]; [done|].
  fold (build v0 vs) in Ht, Hin. simpl. split_and!.
  - done.
  - intros v. by apply insert_duplicate.
  - by apply BST_sorted.
  - intros v. rewrite Hin. simpl. rewrite !elem_of_cons, elem_of_nil. tauto.
Qed.

End Insert.

Lemma insert_sequence_witness :
  let t := build 5 [3; 7; 3; 2; 5; 4; 6; 7] in
  BST t /\
  (forall v, v ∈ inorder t -> insert v t = t) /\
  StronglySorted (fun a b : Z => js_lt a b = true) (inorder t) /\
  (forall v, v ∈ inorder t <-> v ∈ 5 :: [3; 7; 3; 2; 5; 4; 6; 7]).
Proof. exact (insert_sequence (T := Z) 5 [3; 7; 3; 2; 5; 4; 6; 7]). Defined.

Example inorder_example :
  inorder (build 5 [3; 7; 3; 2; 5; 4; 6; 7]) = [2; 3; 4; 5; 6; 7].
Proof. reflexivity. Qed.

End BinaryTreeFacts.

(** ** The parent back-reference *)

Module StoreFacts.
Import Store.

#[local] Set Warnings "-clear-no-such-hyp".

Section Parent.
Context {T : Type}.
Implicit Types (σ : gmap loc (object T)) (this c : loc) (v : option loc).

Lemma new_eq (x : T) (l r : option loc) σ :
  new (Some x) l r σ =
  (Normal (fresh (dom σ)), <[fresh (dom σ) := Object x [l; r] None]> σ).
Proof. reflexivity. Qed.

Lemma fresh_unallocated σ : σ !! fresh (dom σ) = None.
Proof. apply not_elem_of_dom, is_fresh. Qed.

(** The constructor changes no object that exists. *)
Lemma new_frame (x : T) (l r : option loc) σ c :
  is_Some (σ !! c) ->
  <[fresh (dom σ) := Object x [l; r] None]> σ !! c = σ !! c.
Proof.
  intros Hc. apply lookup_insert_ne. intros <-.
  rewrite fresh_unallocated in Hc. by destruct Hc.
Qed.

(** The constructor changes nobody's [parent]. *)
Lemma new_parent_of (x : T) (l r : option loc) σ c :
  parent_of c (<[fresh (dom σ) := Object x [l; r] None]> σ) = parent_of c σ.
Proof.
  unfold parent_of. destruct (decide (c = fresh (dom σ))) as [->|Hne].
  - by rewrite lookup_insert_eq, fresh_unallocated.
  - by rewrite lookup_insert_ne.
Qed.

Lemma alter_slot_parent_of i v this σ c :
  parent_of c (alter (write_slot i v) this σ) = parent_of c σ.
Proof.
  unfold parent_of. destruct (decide (c = this)) as [->|Hne].
  - rewrite lookup_alter_eq. by destruct (σ !! this).
  - by rewrite lookup_alter_ne.
Qed.

Lemma alter_parent_parent_of this c σ :
  is_Some (σ !! c) ->
  parent_of c (alter (write_parent this) c σ) = Some this.
Proof.
  intros [o Ho]. unfold parent_of. by rewrite lookup_alter_eq, Ho.
Qed.

(** The setters write the back-reference of the object they are given. *)
Lemma set_left_parent_of this c σ :
  is_Some (σ !! c) -> parent_of c (set_left this (Some c) σ) = Some this.
Proof.
  intros Hc. unfold set_left.
  by rewrite alter_slot_parent_of, alter_parent_parent_of.
Qed.

Lemma set_right_parent_of this c σ :
  is_Some (σ !! c) -> parent_of c (set_right this (Some c) σ) = Some this.
Proof.
  intros Hc. unfold set_right.
  by rewrite alter_slot_parent_of, alter_parent_parent_of.
Qed.

(** They write no other back-reference, and none when given [null]. *)
Lemma set_left_parent_of_other this v σ c :
  v <> Some c -> parent_of c (set_left this v σ) = parent_of c σ.
Proof.
  intros Hv. unfold set_left. rewrite alter_slot_parent_of.
  destruct v as [c'|]; [|done]. unfold parent_of.
  rewrite lookup_alter_ne; [done | congruence].
Qed.

Lemma set_right_parent_of_other this v σ c :
  v <> Some c -> parent_of c (set_right this v σ) = parent_of c σ.
Proof.
  intros Hv. unfold set_right. rewrite alter_slot_parent_of.
  destruct v as [c'|]; [|done]. unfold parent_of.
  rewrite lookup_alter_ne; [done | congruence].
Qed.

(** The setters write the slot. *)
Lemma set_left_slot this v σ o :
  σ !! this = Some o -> (0 < length (children o))%nat ->
  get_left this (set_left this v σ) = Some v.
Proof.
  intros Ho Hlen. unfold get_left, slot, set_left. rewrite lookup_alter_eq.
  destruct v as [c|].
  - destruct (decide (c = this)) as [->|Hne].
    + rewrite lookup_alter_eq, Ho. simpl. by apply list_lookup_insert_eq.
    + rewrite lookup_alter_ne, Ho by done. simpl.
      by apply list_lookup_insert_eq.
  - rewrite Ho. simpl. by apply list_lookup_insert_eq.
Qed.

Lemma set_right_slot this v σ o :
  σ !! this = Some o -> (1 < length (children o))%nat ->
  get_right this (set_right this v σ) = Some v.
Proof.
  intros Ho Hlen. unfold get_right, slot, set_right. rewrite lookup_alter_eq.
  destruct v as [c|].
  - destruct (decide (c = this)) as [->|Hne].
    + rewrite lookup_alter_eq, Ho. simpl. by apply list_lookup_insert_eq.
    + rewrite lookup_alter_ne, Ho by done. simpl.
      by apply list_lookup_insert_eq.
  - rewrite Ho. simpl. by apply list_lookup_insert_eq.
Qed.

(** C10: [new BinaryTree(x, l, r)] with [c] an object that exists, such
    as a child passed as [l] or as [r]: the new object has the slots
    [[l, r]] and no back-reference, and the back-reference of [c] is what
    it was before the call; it becomes the new object once [c] is assigned
    through the setter of [left] or of [right]. *)
Theorem constructor_keeps_parent (x : T) (l r : option loc) σ c :
  is_Some (σ !! c) ->
  exists this σ',
    new (Some x) l r σ = (Normal this, σ') /\
    σ' !! this = Some (Object x [l; r] None) /\
    get_left this σ' = Some l /\ get_right this σ' = Some r /\
    c <> this /\
    parent_of c σ' = parent_of c σ /\
    parent_of c (set_left this (Some c) σ') = Some this /\
    parent_of c (set_right this (Some c) σ') = Some this.
Proof.
  intros Hc. eexists _, _. split; [apply new_eq|].
  assert (is_Some (<[fresh (dom σ) := Object x [l; r] None]> σ !! c)) as Hc'.
  { by rewrite new_frame. }
  split_and!.
  - apply lookup_insert_eq.
  - unfold get_left, slot. by rewrite lookup_insert_eq.
  - unfold get_right, slot. by rewrite lookup_insert_eq.
  - intros ->. rewrite fresh_unallocated in Hc. by destruct Hc.
  - apply new_parent_of.
  - by apply set_left_parent_of.
  - by apply set_right_parent_of.
Qed.

End Parent.

(** A child made by [new BinaryTree(3)] and passed to
    [new BinaryTree(5, child)]. *)
Lemma constructor_keeps_parent_witness :
  let σ : gmap loc (object Z) := {[ 0%nat := Object 3 [None; None] None ]} in
  exists this σ',
    new (Some 5) (Some 0%nat) None σ = (Normal this, σ') /\
    σ' !! this = Some (Object 5 [Some 0%nat; None] None) /\
    get_left this σ' = Some (Some 0%nat) /\ get_right this σ' = Some None /\
    0%nat <> this /\
    parent_of 0%nat σ' = parent_of 0%nat σ /\
    parent_of 0%nat (set_left this (Some 0%nat) σ') = Some this /\
    parent_of 0%nat (set_right this (Some 0%nat) σ') = Some this.
Proof.
  intros σ.
  apply (constructor_keeps_parent 5 (Some 0%nat) None σ 0%nat).
  exists (Object 3 [None; None] None). reflexivity.
Defined.

(** The two ways to give the root 5 the left child 3: through the
    constructor the child has no [parent]; through [insert], which assigns
    [this.left], it has. *)
Example parent_after_constructor :
  match new (Some 3) None None (∅ : gmap loc (object Z)) with
  | (Normal c, σ1) =>
      match new (Some 5) (Some c) None σ1 with
      | (Normal root, σ2) =>
          get_left root σ2 = Some (Some c) /\ parent_of c σ2 = None
      | _ => False
      end
  | _ => False
  end.
Proof. vm_compute. done. Qed.

Example parent_after_insert :
  match new (Some 5) None None (∅ : gmap loc (object Z)) with
  | (Normal root, σ1) =>
      match insert 2 3 root σ1 with
      | Some (Normal _, σ2) =>
          exists c, get_left root σ2 = Some (Some c) /\
                    parent_of c σ2 = Some root
      | _ => False
      end
  | _ => False
  end.
Proof. vm_compute. by exists 1%nat. Qed.

Section Refinement.
Context {T : Type} {less : Less T}.
Implicit Types (σ : gmap loc (object T)) (this c : loc) (D : gset loc)
  (b : BinaryTree.BinaryTree T).

Lemma repr_eq σ v bl br this D :
  repr σ (BinaryTree.BNode v bl br) this D <->
  exists (l r p : option loc) (Dl Dr : gset loc),
    σ !! this = Some (Object v [l; r] p) /\
    D = {[this]} ∪ Dl ∪ Dr /\
    (this ∉ Dl) /\ (this ∉ Dr) /\ (Dl ## Dr) /\
    match bl, l with
    | None, None => Dl = ∅
    | Some c, Some lc => parent_of lc σ = Some this /\ repr σ c lc Dl
    | _, _ => False
    end /\
    match br, r with
    | None, None => Dr = ∅
    | Some c, Some rc => parent_of rc σ = Some this /\ repr σ c rc Dr
    | _, _ => False
    end.
Proof. reflexivity. Qed.

Lemma repr_root σ b this D : repr σ b this D -> this ∈ D.
Proof.
  destruct b as [v bl br]. rewrite repr_eq.
  intros (l & r & p & Dl & Dr & _ & -> & _). set_solver.
Qed.

(** The locations of a represented tree are allocated. *)
Lemma repr_dom σ b this D : repr σ b this D -> D ⊆ dom σ.
Proof.
  revert this D.
  induction b as [v bl br IHl IHr] using BinaryTreeFacts.BinaryTree_ind.
  intros this D. rewrite repr_eq.
  intros (l & r & p & Dl & Dr & Hthis & -> & _ & _ & _ & Hl & Hr).
  assert (this ∈ dom σ) by (apply elem_of_dom; eauto).
  assert (Dl ⊆ dom σ).
  { destruct bl as [cb|], l as [lc|]; try done.
    - destruct Hl as [_ Hl]. by apply (IHl cb eq_refl lc).
    - set_solver. }
  assert (Dr ⊆ dom σ).
  { destruct br as [cb|], r as [rc|]; try done.
    - destruct Hr as [_ Hr]. by apply (IHr cb eq_refl rc).
    - set_solver. }
  set_solver.
Qed.

(** The representation reads the store at the locations of the tree
    only. *)
Lemma repr_frame σ σ' b this D :
  repr σ b this D -> (forall k, k ∈ D -> σ' !! k = σ !! k) ->
  repr σ' b this D.
Proof.
  revert this D.
  induction b as [v bl br IHl IHr] using BinaryTreeFacts.BinaryTree_ind.
  intros this D. rewrite !repr_eq.
  intros (l & r & p & Dl & Dr & Hthis & -> & Hnl & Hnr & Hd & Hl & Hr) Hagree.
  exists l, r, p, Dl, Dr. split_and!; try done.
  - rewrite Hagree; [done | set_solver].
  - destruct bl as [cb|], l as [lc|]; try done.
    destruct Hl as [Hp Hl]. pose proof (repr_root _ _ _ _ Hl). split.
    + unfold parent_of in *. rewrite Hagree; [done | set_solver].
    + apply (IHl cb eq_refl lc); [done|]. intros k Hk. apply Hagree. set_solver.
  - destruct br as [cb|], r as [rc|]; try done.
    destruct Hr as [Hp Hr]. pose proof (repr_root _ _ _ _ Hr). split.
    + unfold parent_of in *. rewrite Hagree; [done | set_solver].
    + apply (IHr cb eq_refl rc); [done|]. intros k Hk. apply Hagree. set_solver.
Qed.

Lemma levels_pos b : (0 < levels b)%nat.
Proof. destruct b; simpl; lia. Qed.

Lemma insert_unfold fuel (v : T) this σ o :
  σ !! this = Some o ->
  insert (S fuel) v this σ =
  if js_lt v (value o) then
    match children o !! 0%nat with
    | Some None =>
        Some (Normal tt,
              set_left this (Some (fresh (dom σ)))
                (<[fresh (dom σ) := Object v [None; None] None]> σ))
    | Some (Some c) => insert fuel v c σ
    | None => Some (Throw "TypeError", σ)
    end
  else if js_lt (value o) v then
    match children o !! 1%nat with
    | Some None =>
        Some (Normal tt,
              set_right this (Some (fresh (dom σ)))
                (<[fresh (dom σ) := Object v [None; None] None]> σ))
    | Some (Some c) => insert fuel v c σ
    | None => Some (Throw "TypeError", σ)
    end
  else Some (Normal tt, σ).
Proof. intros Ho. simpl. by rewrite Ho. Qed.

(** The store after a setter has attached the fresh leaf [c] to [this]. *)
Lemma attach_lookup i (v x : T) l r p this σ (set : loc -> option loc -> _) :
  (forall t w s, set t w s =
     alter (write_slot i w) t
       (match w with Some c => alter (write_parent t) c s | None => s end)) ->
  σ !! this = Some (Object x [l; r] p) ->
  let c := fresh (dom σ) in
  let σ' := set this (Some c) (<[c := Object v [None; None] None]> σ) in
  c <> this /\
  σ' !! this = Some (Object x (<[i := Some c]> [l; r]) p) /\
  σ' !! c = Some (Object v [None; None] (Some this)) /\
  forall k, k <> this -> k <> c -> σ' !! k = σ !! k.
Proof.
  intros Hset Hthis c σ'. subst σ'. rewrite Hset.
  assert (c <> this) as Hne.
  { intros Hc. pose proof (fresh_unallocated σ) as Hf. fold c in Hf.
    rewrite Hc in Hf. congruence. }
  split_and!; [done| | |].
  - rewrite lookup_alter_eq, lookup_alter_ne, lookup_insert_ne, Hthis by done.
    done.
  - rewrite lookup_alter_ne, lookup_alter_eq, lookup_insert_eq by done. done.
  - intros k Hk1 Hk2.
    by rewrite !lookup_alter_ne, lookup_insert_ne by done.
Qed.

Lemma leaf_repr σ (v : T) c p :
  σ !! c = Some (Object v [None; None] p) ->
  repr σ (BinaryTree.BNode v None None) c {[c]}.
Proof.
  intros Hc. apply repr_eq. exists None, None, p, ∅, ∅.
  split_and!; try done; set_solver.
Qed.

(** [insert] on the objects does what [BinaryTree.insert] does on the
    tree they represent: with fuel for the levels of the tree it completes
    normally, the store then represents the tree after the insertion, the
    new locations were unallocated, the objects outside the tree are
    untouched, and the back-reference of [this] is as before. *)
Lemma insert_refines b : forall σ this D (v : T) fuel,
  repr σ b this D -> (levels b <= fuel)%nat ->
  exists σ' D',
    insert fuel v this σ = Some (Normal tt, σ') /\
    repr σ' (BinaryTree.insert v b) this D' /\
    D ⊆ D' /\
    (forall k, k ∈ D' -> k ∉ D -> σ !! k = None) /\
    (forall k, k ∉ D' -> σ' !! k = σ !! k) /\
    parent_of this σ' = parent_of this σ.
Proof.
  induction b as [x bl br IHl IHr] using BinaryTreeFacts.BinaryTree_ind.
  intros σ this D v fuel Hrepr Hfuel.
  pose proof (repr_dom _ _ _ _ Hrepr) as Hdom.
  destruct fuel as [|fuel]; [simpl in Hfuel; lia|].
  apply repr_eq in Hrepr
    as (l & r & p & Dl & Dr & Hthis & -> & Hnl & Hnr & Hd & Hl & Hr).
  rewrite (insert_unfold _ _ _ _ _ Hthis), BinaryTreeFacts.insert_eq.
  simpl value. simpl children.
  destruct (js_lt v x) eqn:Hvx; [|destruct (js_lt x v) eqn:Hxv].
  - (* into the left slot *)
    change ([l; r] !! 0%nat) with (Some l).
    destruct bl as [cb|], l as [lc|]; try done.
    + destruct Hl as [Hp Hl].
      destruct (IHl cb eq_refl σ lc Dl v fuel Hl) as
        (σ' & Dl' & Hins & Hrepr' & Hsub & Hnew & Hframe & Hparent).
      { simpl in Hfuel. lia. }
      assert (this ∉ Dl') as Hnl'.
      { intros Hin. apply Hnew in Hin; [congruence | done]. }
      assert (Dl' ## Dr) as Hd'.
      { intros k Hk1 Hk2. destruct (decide (k ∈ Dl)) as [Hk|Hk].
        - by apply (Hd k).
        - apply Hnew in Hk1; [|done].
          assert (k ∈ dom σ) as [o Ho]%elem_of_dom by set_solver. congruence. }
      exists σ', ({[this]} ∪ Dl' ∪ Dr). split_and!.
      * done.
      * cbn [from_option]. apply repr_eq. exists (Some lc), r, p, Dl', Dr.
        split_and!; try done.
        -- by rewrite Hframe.
        -- congruence.
        -- destruct br as [cb'|], r as [rc|]; try done.
           destruct Hr as [Hpr Hr]. pose proof (repr_root _ _ _ _ Hr).
           assert (forall k, k ∈ Dr -> σ' !! k = σ !! k) as Hagree.
           { intros k Hk. apply Hframe. intros Hk'. by apply (Hd' k). }
           split; [|by eapply repr_frame].
           unfold parent_of in *. by rewrite Hagree.
      * set_solver.
      * intros k Hk Hk'. apply Hnew; set_solver.
      * intros k Hk. apply Hframe. set_solver.
      * unfold parent_of. by rewrite Hframe.
    + subst Dl. cbn [from_option].
      destruct (attach_lookup 0 v x None r p this σ set_left)
        as (Hne & Hthis' & Hc' & Hrest); [done..|].
      set (c := fresh (dom σ)) in *.
      set (σ' := set_left this (Some c) _) in *.
      assert (σ !! c = None) as Hc by apply fresh_unallocated.
      assert (c ∉ Dr) as HcDr.
      { intros Hin. assert (c ∈ dom σ) as [o Ho]%elem_of_dom by set_solver.
        congruence. }
      exists σ', ({[this]} ∪ {[c]} ∪ Dr). split_and!.
      * done.
      * apply repr_eq. exists (Some c), r, p, {[c]}, Dr.
        split_and!; [exact Hthis' | done | | done | | | |].
        -- apply not_elem_of_singleton. congruence.
        -- by apply disjoint_singleton_l.
        -- unfold parent_of. by rewrite Hc'.
        -- eapply leaf_repr. exact Hc'.
        -- destruct br as [cb'|], r as [rc|]; try done.
           destruct Hr as [Hpr Hr]. pose proof (repr_root _ _ _ _ Hr).
           assert (forall k, k ∈ Dr -> σ' !! k = σ !! k) as Hagree.
           { intros k Hk. apply Hrest; set_solver. }
           split; [|by eapply repr_frame].
           unfold parent_of in *. by rewrite Hagree.
      * set_solver.
      * intros k Hk Hk'. assert (k = c) as -> by set_solver. done.
      * intros k Hk. apply Hrest; set_solver.
      * unfold parent_of. rewrite Hthis', Hthis. done.
  - (* into the right slot *)
    change ([l; r] !! 1%nat) with (Some r).
    destruct br as [cb|], r as [rc|]; try done.
    + destruct Hr as [Hp Hr].
      destruct (IHr cb eq_refl σ rc Dr v fuel Hr) as
        (σ' & Dr' & Hins & Hrepr' & Hsub & Hnew & Hframe & Hparent).
      { simpl in Hfuel. lia. }
      assert (this ∉ Dr') as Hnr'.
      { intros Hin. apply Hnew in Hin; [congruence | done]. }
      assert (Dl ## Dr') as Hd'.
      { intros k Hk1 Hk2. destruct (decide (k ∈ Dr)) as [Hk|Hk].
        - by apply (Hd k).
        - apply Hnew in Hk2; [|done].
          assert (k ∈ dom σ) as [o Ho]%elem_of_dom by set_solver. congruence. }
      exists σ', ({[this]} ∪ Dl ∪ Dr'). split_and!.
      * done.
      * cbn [from_option]. apply repr_eq. exists l, (Some rc), p, Dl, Dr'.
        split_and!; try done.
        -- by rewrite Hframe.
        -- destruct bl as [cb'|], l as [lc|]; try done.
           destruct Hl as [Hpl Hl]. pose proof (repr_root _ _ _ _ Hl).
           assert (forall k, k ∈ Dl -> σ' !! k = σ !! k) as Hagree.
           { intros k Hk. apply Hframe. intros Hk'. by apply (Hd' k). }
           split; [|by eapply repr_frame].
           unfold parent_of in *. by rewrite Hagree.
        -- congruence.
      * set_solver.
      * intros k Hk Hk'. apply Hnew; set_solver.
      * intros k Hk. apply Hframe. set_solver.
      * unfold parent_of. by rewrite Hframe.
    + subst Dr. cbn [from_option].
      destruct (attach_lookup 1 v x l None p this σ set_right)
        as (Hne & Hthis' & Hc' & Hrest); [done..|].
      set (c := fresh (dom σ)) in *.
      set (σ' := set_right this (Some c) _) in *.
      assert (σ !! c = None) as Hc by apply fresh_unallocated.
      assert (c ∉ Dl) as HcDl.
      { intros Hin. assert (c ∈ dom σ) as [o Ho]%elem_of_dom by set_solver.
        congruence. }
      exists σ', ({[this]} ∪ Dl ∪ {[c]}). split_and!.
      * done.
      * apply repr_eq. exists l, (Some c), p, Dl, {[c]}.
        split_and!; [exact Hthis' | done | done | | | | |].
        -- apply not_elem_of_singleton. congruence.
        -- by apply disjoint_singleton_r.
        -- destruct bl as [cb'|], l as [lc|]; try done.
           destruct Hl as [Hpl Hl]. pose proof (repr_root _ _ _ _ Hl).
           assert (forall k, k ∈ Dl -> σ' !! k = σ !! k) as Hagree.
           { intros k Hk. apply Hrest; set_solver. }
           split; [|by eapply repr_frame].
           unfold parent_of in *. by rewrite Hagree.
        -- unfold parent_of. by rewrite Hc'.
        -- eapply leaf_repr. exact Hc'.
      * set_solver.
      * intros k Hk Hk'. assert (k = c) as -> by set_solver. done.
      * intros k Hk. apply Hrest; set_solver.
      * unfold parent_of. rewrite Hthis', Hthis. done.
  - (* the value is there: nothing changes *)
    exists σ, ({[this]} ∪ Dl ∪ Dr). split_and!; try done.
    apply repr_eq. by exists l, r, p, Dl, Dr.
Qed.

Lemma levels_insert (v : T) b :
  (levels (BinaryTree.insert v b) <= S (levels b))%nat.
Proof.
  induction b as [x bl br IHl IHr] using BinaryTreeFacts.BinaryTree_ind.
  rewrite BinaryTreeFacts.insert_eq.
  destruct (js_lt v x); [|destruct (js_lt x v)]; simpl; [| |lia].
  - destruct bl as [cb|]; simpl; [|lia].
    specialize (IHl cb eq_refl). lia.
  - destruct br as [cb|]; simpl; [|lia].
    specialize (IHr cb eq_refl). lia.
Qed.

Lemma insert_all_refines (vs : list T) : forall b σ this D fuel,
  repr σ b this D -> (levels b + length vs <= fuel)%nat ->
  exists σ' D',
    insert_all fuel vs this σ = Some σ' /\
    repr σ' (fold_left (fun t v => BinaryTree.insert v t) vs b) this D'.
Proof.
  induction vs as [|v vs IH]; intros b σ this D fuel Hrepr Hfuel; simpl.
  - by exists σ, D.
  - destruct (insert_refines b σ this D v fuel Hrepr) as
      (σ1 & D1 & -> & Hrepr1 & _); [simpl in Hfuel; lia|].
    apply (IH _ _ _ _ _ Hrepr1).
    pose proof (levels_insert v b). simpl in Hfuel. lia.
Qed.

(** [new BinaryTree(v0)] on the empty store, then [insert] of every value
    of [vs]: every call completes, and the objects are the tree
    [BinaryTree.build v0 vs], every child referring back to its parent. *)
Lemma build_in_store (v0 : T) (vs : list T) :
  exists root σ0 σ D,
    new (Some v0) None None (∅ : gmap loc (object T)) = (Normal root, σ0) /\
    insert_all (S (length vs)) vs root σ0 = Some σ /\
    repr σ (BinaryTree.build v0 vs) root D.
Proof.
  eexists _, _. 
  destruct (insert_all_refines vs (BinaryTree.BNode v0 None None)
              (<[fresh (dom (∅ : gmap loc (object T))) :=
                   Object v0 [None; None] None]> ∅)
              (fresh (dom (∅ : gmap loc (object T))))
              {[fresh (dom (∅ : gmap loc (object T)))]} (S (length vs)))
    as (σ & D & Hrun & Hrepr).
  - eapply leaf_repr. apply lookup_insert_eq.
  - simpl. lia.
  - exists σ, D. split; [apply new_eq|]. by split.
Qed.

End Refinement.




End StoreFacts.

(** ** Tree: how the operations compose *)

Module TreeLaws.
Import Tree TreeFacts.

Section Height.
Context {V : Type}.
Implicit Types (t : Tree V) (cs : list (option (Tree V))).

Lemma foldr_max_app (l1 l2 : list Z) :
  foldr Z.max 0 (l1 ++ l2) = Z.max (foldr Z.max 0 l1) (foldr Z.max 0 l2).
Proof.
  induction l1 as [|x l1 IH]; simpl.
  - pose proof (foldr_max_nonneg l2). lia.
  - rewrite IH. lia.
Qed.

Lemma foldr_max_rev (l : list Z) : foldr Z.max 0 (rev l) = foldr Z.max 0 l.
Proof.
  induction l as [|x l IH]; simpl; [done|].
  rewrite foldr_max_app, IH. simpl. pose proof (foldr_max_nonneg l). lia.
Qed.

Lemma height_via_slots v cs :
  cs <> [] -> height (Node v cs) = 1 + foldr Z.max 0 (map slot_height cs).
Proof. intros Hcs. by rewrite height_slots, foldr_max_present. Qed.

(** [add] on a node without slots gives height 1; on a node that has a
    slot the new leaf adds a 0 to the maximum and the height is as
    before. *)
Theorem height_add (w : V) t : height (add w t) = Z.max 1 (height t).
Proof.
  destruct t as [v cs]. unfold add.
  rewrite height_via_slots by (by destruct cs).
  rewrite map_app, foldr_max_app.
  destruct cs as [|c cs]; [reflexivity|].
  rewrite (height_via_slots v (c :: cs)) by done.
  pose proof (foldr_max_nonneg (map slot_height (c :: cs))).
  change (foldr Z.max 0 (map slot_height [Some (Node w [])])) with 0. lia.
Qed.

(** [invert] keeps the height. *)
Theorem height_invert t : height (invert t) = height t.
Proof.
  induction t as [v cs IH] using Tree_ind.
  rewrite invert_eq. destruct cs as [|c cs]; [reflexivity|].
  rewrite !height_via_slots; [|done|].
  - f_equal. rewrite map_map, map_rev, foldr_max_rev. f_equal.
    apply map_ext_Forall. eapply Forall_impl; [exact IH|].
    intros [d|] Hd; simpl; done.
  - intros E. apply (f_equal length) in E.
    rewrite length_map, length_rev in E. done.
Qed.

End Height.

Section Slots.
Context {V : Type} `{DefaultString V}.
Implicit Types (t : Tree V) (cs : list (option (Tree V))).

(** [add] puts the value last in the pre-order. *)
Lemma preorder_add (w : V) t : preorder (add w t) = preorder t ++ [w].
Proof.
  destruct t as [v cs]. unfold add. by rewrite !preorder_eq, flat_map_app.
Qed.

Lemma toString_eq predicate v cs :
  toString predicate (Node v cs) =
  let output :=
    match predicate with Some p => p v | None => default_string v end in
  let outs := omap (fun child => toString None <$> child) cs in
  if Nat.eqb (length outs) 0 then output
  else toString_loop (length outs) 0 outs output.
Proof. reflexivity. Qed.

Lemma omap_present {B} (f : Tree V -> B) cs :
  omap (fun child => f <$> child) (map Some (present cs)) =
  omap (fun child => f <$> child) cs.
Proof.
  unfold present. induction cs as [|[c|] cs IH]; simpl; [done| |exact IH].
  f_equal. exact IH.
Qed.

(** The [null] slots do not show in [toString], with or without a
    renderer: the output is that of the node with its non-null children
    only. *)
Theorem toString_skips_null_slots predicate v cs :
  toString predicate (Node v cs) =
  toString predicate (Node v (map Some (present cs))).
Proof. by rewrite !toString_eq, omap_present. Qed.

(** Two renderers that agree on the root value give the same output, and
    a renderer that is the default conversion there gives the output of
    [toString()]. *)
Lemma toString_renderer_at_root (r1 r2 : V -> string) t :
  r1 (value t) = r2 (value t) ->
  toString (Some r1) t = toString (Some r2) t /\
  (r1 (value t) = default_string (value t) ->
   toString (Some r1) t = toString None t).
Proof.
  destruct t as [v cs]. simpl value. intros E. rewrite !toString_eq.
  simpl. rewrite E. split; [done|]. by intros <-.
Qed.

End Slots.

Section Search.
Context {T : Type}.
Implicit Types (p : option T -> bool) (t : Tree (option T))
  (cs : list (option (Tree (option T)))).

Lemma search_children_app p cs1 cs2 :
  search_children p (cs1 ++ cs2) =
  match search_children p cs1 with
  | Some r => Some r
  | None => search_children p cs2
  end.
Proof.
  induction cs1 as [|[c|] cs1 IH]; simpl; [done| |done].
  by destruct (search p c).
Qed.

(** [search] after [add]: a result that was found is found again; when
    there was none, and the root does not match, the new value is what is
    left to try. *)
Theorem search_add p (w : option T) t :
  search p (add w t) =
  match search p t with
  | Some r => Some r
  | None => if p (value t) then None else if p w then w else None
  end.
Proof.
  destruct t as [v cs]. unfold add. rewrite !search_eq. simpl value.
  destruct (p v) eqn:Hv; [by destruct v|].
  rewrite search_children_app.
  destruct (search_children p cs); [done|].
  simpl. by destruct (p w), w.
Qed.

Lemma search_children_found p cs (x : T) :
  search_children p cs = Some x ->
  exists c, Some c ∈ cs /\ search p c = Some x.
Proof.
  induction cs as [|[c|] cs IH]; simpl; [done| |].
  - destruct (search p c) as [r|] eqn:E.
    + intros [= ->]. exists c. split; [left | done].
    + intros (d & Hd & Hs)%IH. exists d. split; [by right | done].
  - intros (d & Hd & Hs)%IH. exists d. split; [by right | done].
Qed.

(** What [search] returns, when it is not [null], is the value of a node
    of the tree and satisfies the predicate. *)
Theorem search_sound p t (x : T) :
  search p t = Some x -> p (Some x) = true /\ Some x ∈ preorder t.
Proof.
  induction t as [v cs IH] using Tree_ind.
  rewrite search_eq, preorder_eq.
  destruct (p v) eqn:Hv.
  - intros ->. split; [done | left].
  - intros (c & Hc & Hs)%search_children_found.
    rewrite Forall_forall in IH. destruct (IH _ Hc Hs) as [Hp Hin].
    split; [done|]. right. apply list_elem_of_In, in_flat_map.
    exists (Some c). split; [by apply list_elem_of_In|].
    by apply list_elem_of_In.
Qed.

Lemma search_children_present p cs :
  search_children p (map Some (present cs)) = search_children p cs.
Proof.
  unfold present. induction cs as [|[c|] cs IH]; simpl; [done| |exact IH].
  destruct (search p c); [done | exact IH].
Qed.

(** The [null] slots do not show in [search] nor in the pre-order. *)
Theorem search_skips_null_slots p v cs :
  search p (Node v cs) = search p (Node v (map Some (present cs))) /\
  preorder (Node v cs) = preorder (Node v (map Some (present cs))).
Proof.
  rewrite !search_eq, search_children_present, !preorder_eq. split; [done|].
  f_equal. unfold present.
  induction cs as [|[c|] cs IH]; simpl; [done| |done]. by rewrite IH.
Qed.

(** On a tree without [null] values, [invert] does not change whether
    [search] finds a value. *)
Theorem search_invert p t :
  Forall is_Some (preorder t) ->
  is_Some (search p (invert t)) <-> is_Some (search p t).
Proof.
  intros Hnn.
  assert (forall u : Tree (option T), Forall is_Some (preorder u) ->
            is_Some (search p u) <->
            exists x, x ∈ preorder u /\ p x = true) as Hchar.
  { intros u Hu. rewrite search_null_free by done.
    unfold first_preorder_match. rewrite Forall_forall in Hu. split.
    - destruct (find p (preorder u)) as [x|] eqn:E; [|by intros []].
      apply find_some in E as [Hin Hp]. intros _. exists x.
      split; [by apply list_elem_of_In | done].
    - intros (x & Hin & Hp).
      destruct (find p (preorder u)) as [y|] eqn:E.
      + apply find_some in E as [Hy _]. by apply Hu, list_elem_of_In.
      + apply list_elem_of_In in Hin.
        pose proof (find_none _ _ E x Hin). congruence. }
  rewrite !Hchar; [|done|by rewrite invert_preorder].
  by setoid_rewrite invert_preorder.
Qed.

End Search.

Lemma search_sound_witness :
  negb (bool_decide (Some 2 = Some 1)) = true /\
  Some 2 ∈ preorder null_valued_tree.
Proof.
  exact (search_sound (fun v : option Z => negb (bool_decide (v = Some 1)))
           null_valued_tree 2 eq_refl).
Defined.

Lemma search_invert_witness :
  is_Some (search (fun v : option Z => bool_decide (v = Some 3))
             (invert (nullable example_tree))) <->
  is_Some (search (fun v : option Z => bool_decide (v = Some 3))
             (nullable example_tree)).
Proof.
  apply (search_invert (fun v : option Z => bool_decide (v = Some 3))
           (nullable example_tree)).
  repeat constructor; eexists; reflexivity.
Defined.

Section Lines.
Context {V : Type} `{DefaultString V}.
Implicit Types (t : Tree V) (cs : list (option (Tree V))).

Lemma count_LF_append (a b : string) :
  count_LF (String.append a b) = (count_LF a + count_LF b)%nat.
Proof.
  induction a as [|x a IH]; [done|].
  change (count_LF (String x (String.append a b)) =
          (count_LF (String x a) + count_LF b)%nat).
  simpl. destruct (Ascii.eqb x (ascii_of_nat 10)); lia.
Qed.

Lemma count_LF_replace (by_ s : string) :
  count_LF (replace_LF by_ s) = (count_LF s * count_LF by_)%nat.
Proof.
  induction s as [|x s IH]; simpl; [done|].
  destruct (Ascii.eqb x (ascii_of_nat 10)) eqn:E.
  - rewrite count_LF_append, IH. lia.
  - simpl. by rewrite E.
Qed.

(** Prefixing the block of a child adds no line. *)
Lemma count_LF_branch (lastChild : bool) (childOutput : string) :
  count_LF (branch lastChild childOutput) = count_LF childOutput.
Proof.
  unfold branch. rewrite count_LF_append, count_LF_replace.
  destruct lastChild.
  - change (count_LF "└─") with 0%nat.
    change (count_LF (String.append LF "  ")) with 1%nat. lia.
  - change (count_LF "├─") with 0%nat.
    change (count_LF (String.append LF "│ ")) with 1%nat. lia.
Qed.

Lemma count_LF_loop len i (outs : list string) (output : string) :
  count_LF (toString_loop len i outs output) =
  (count_LF output + list_sum (map (fun o => S (count_LF o)) outs))%nat.
Proof.
  revert i output. induction outs as [|o outs IH]; intros i output; simpl.
  - lia.
  - rewrite IH, !count_LF_append, count_LF_branch.
    change (count_LF LF) with 1%nat. lia.
Qed.

Lemma count_LF_toString predicate v cs :
  count_LF (toString predicate (Node v cs)) =
  (count_LF (match predicate with
             | Some p => p v
             | None => default_string v
             end) +
   list_sum (map (fun o => S (count_LF o))
               (omap (fun child => toString None <$> child) cs)))%nat.
Proof.
  rewrite toString_eq. cbv zeta.
  destruct (omap _ cs) as [|o outs] eqn:E.
  - simpl. lia.
  - change (Nat.eqb (length (o :: outs)) 0) with false. cbv iota.
    apply count_LF_loop.
Qed.

(** When the string of no value has a line feed, [toString()] prints one
    line for each node. *)
Theorem toString_one_line_per_node t :
  Forall (fun v => count_LF (default_string v) = 0%nat) (preorder t) ->
  S (count_LF (toString None t)) = size t.
Proof.
  induction t as [v cs IH] using Tree_ind.
  rewrite preorder_eq, count_LF_toString. intros [Hv Hcs]%Forall_cons_1.
  rewrite Hv. cbn -[toString]. f_equal.
  induction IH as [|c cs Hc _ IHcs]; [done|].
  cbn -[toString] in Hcs. apply Forall_app in Hcs as [Hc' Hcs'].
  destruct c as [c|]; cbn -[toString size].
  - pose proof (Hc Hc') as E1. pose proof (IHcs Hcs') as E2.
    unfold list_sum in E2. lia.
  - by apply IHcs.
Qed.

End Lines.

(** The decimal string of an integer has no line feed. *)
Lemma count_LF_integer (n : Z) : count_LF (default_string n) = 0%nat.
Proof.
  assert (forall d, count_LF (NilEmpty.string_of_uint d) = 0%nat) as Hd.
  { induction d; simpl; done. }
  assert (forall d, count_LF (NilZero.string_of_uint d) = 0%nat) as Hz.
  { intros d. unfold NilZero.string_of_uint. destruct d; try apply Hd. done. }
  unfold default_string, Z_DefaultString, NilZero.string_of_int.
  destruct (Z.to_int n); [apply Hz|]. simpl. apply Hz.
Qed.

Lemma toString_one_line_per_node_witness :
  S (count_LF (toString None example_tree)) = size example_tree.
Proof.
  apply (toString_one_line_per_node example_tree).
  apply Forall_forall. intros v _. apply count_LF_integer.
Defined.

End TreeLaws.

(** ** BinaryTree: extremes, inversion, height and size *)

Module BinaryTreeLaws.
Import BinaryTree BinaryTreeFacts.

Section Shape.
Context {T : Type}.
Implicit Types (b c : BinaryTree T).

Lemma leftMost_inorder b :
  left (leftMost b) = None /\
  exists rest, inorder b = value (leftMost b) :: rest.
Proof.
  induction b as [v l r IHl _] using BinaryTree_ind.
  rewrite inorder_eq. destruct l as [c|]; simpl.
  - destruct (IHl c eq_refl) as [Hl [rest ->]]. split; [done|].
    by eexists.
  - split; [done|]. by eexists.
Qed.

Lemma rightMost_inorder b :
  right (rightMost b) = None /\
  exists rest, inorder b = rest ++ [value (rightMost b)].
Proof.
  induction b as [v l r _ IHr] using BinaryTree_ind.
  rewrite inorder_eq. destruct r as [c|]; simpl.
  - destruct (IHr c eq_refl) as [Hr [rest ->]]. split; [done|].
    exists (from_option inorder [] l ++ v :: rest).
    by rewrite <- app_assoc.
  - split; [done|]. by eexists.
Qed.

Lemma value_in_inorder b : value b ∈ inorder b.
Proof.
  destruct b as [v l r]. rewrite inorder_eq, elem_of_app, elem_of_cons.
  simpl. tauto.
Qed.

Lemma BinaryTree_invert_eq v (l r : option (BinaryTree T)) :
  invert (BNode v l r) = BNode v (invert <$> r) (invert <$> l).
Proof. by destruct l, r. Qed.

Lemma inorder_invert b : inorder (invert b) = rev (inorder b).
Proof.
  induction b as [v l r IHl IHr] using BinaryTree_ind.
  rewrite BinaryTree_invert_eq, !inorder_eq, rev_app_distr. simpl.
  rewrite <- app_assoc. simpl. f_equal; [|f_equal].
  - destruct r as [c|]; simpl; [by apply IHr | done].
  - destruct l as [c|]; simpl; [by apply IHl | done].
Qed.

(** [invert()] on a BinaryTree is the [invert()] of Tree on the slots
    [[left, right]]: the two children are swapped at every node, and the
    in-order traversal is reversed. *)
Theorem invert_mirrors b :
  as_Tree (invert b) = Tree.invert (as_Tree b) /\
  inorder (invert b) = rev (inorder b).
Proof.
  split; [|apply inorder_invert].
  induction b as [v l r IHl IHr] using BinaryTree_ind.
  rewrite BinaryTree_invert_eq. simpl. f_equal. f_equal; [|f_equal].
  - destruct r as [c|]; simpl; [|done]. f_equal. by apply IHr.
  - destruct l as [c|]; simpl; [|done]. f_equal. by apply IHl.
Qed.

(** After [invert()], [leftMost()] holds the value [rightMost()] held, and
    the other way round. *)
Theorem invert_swaps_extremes b :
  value (leftMost (invert b)) = value (rightMost b) /\
  value (rightMost (invert b)) = value (leftMost b).
Proof.
  induction b as [v l r IHl IHr] using BinaryTree_ind.
  rewrite BinaryTree_invert_eq. split.
  - destruct r as [c|]; simpl; [|done]. by apply IHr.
  - destruct l as [c|]; simpl; [|done]. by apply IHl.
Qed.

Lemma height_is_levels b : height b = Z.of_nat (Store.levels b).
Proof.
  induction b as [v l r IHl IHr] using BinaryTree_ind.
  unfold height in *. simpl as_Tree. rewrite TreeFacts.height_eq.
  simpl map. cbv beta iota. unfold Math_max. simpl fold_left.
  simpl Store.levels. rewrite Nat2Z.inj_succ, Nat2Z.inj_max.
  destruct l as [cl|], r as [cr|]; simpl;
    rewrite ?(IHl _ eq_refl), ?(IHr _ eq_refl); lia.
Qed.

(** [leftMost()] is the node the in-order traversal starts with, and it
    has no left child. *)
Theorem leftMost_first b :
  left (leftMost b) = None /\
  exists rest, inorder b = value (leftMost b) :: rest.
Proof. apply leftMost_inorder. Qed.

(** [rightMost()] is the node the in-order traversal ends with, and it
    has no right child. *)
Theorem rightMost_last b :
  right (rightMost b) = None /\
  exists rest, inorder b = rest ++ [value (rightMost b)].
Proof. apply rightMost_inorder. Qed.

(** [height()] of a BinaryTree is its number of levels: 1 for a single
    node, and one more than the larger height of its children. *)
Theorem height_levels b : height b = Z.of_nat (Store.levels b).
Proof. apply height_is_levels. Qed.

Lemma size_lt_pow b : (size b < 2 ^ Store.levels b)%nat.
Proof.
  induction b as [v l r IHl IHr] using BinaryTree_ind.
  simpl size. simpl Store.levels.
  set (nl := match l with Some c => Store.levels c | None => 0%nat end).
  set (nr := match r with Some c => Store.levels c | None => 0%nat end).
  assert ((match l with Some c => size c | None => 0 end < 2 ^ nl)%nat) as Hl.
  { subst nl. destruct l as [c|]; [by apply IHl | simpl; lia]. }
  assert ((match r with Some c => size c | None => 0 end < 2 ^ nr)%nat) as Hr.
  { subst nr. destruct r as [c|]; [by apply IHr | simpl; lia]. }
  assert (2 ^ nl <= 2 ^ Nat.max nl nr)%nat
    by (apply Nat.pow_le_mono_r; lia).
  assert (2 ^ nr <= 2 ^ Nat.max nl nr)%nat
    by (apply Nat.pow_le_mono_r; lia).
  rewrite Nat.pow_succ_r'. lia.
Qed.

(** The number of nodes is at most [2^height() - 1], and [maxNodes()] is
    more than twice the number of nodes. *)
Theorem size_below_maxNodes b :
  Z.of_nat (size b) <= 2 ^ height b - 1 /\
  2 * Z.of_nat (size b) < maxNodes b.
Proof.
  pose proof (size_lt_pow b) as Hs. apply Nat2Z.inj_lt in Hs.
  rewrite Nat2Z.inj_pow in Hs. change (Z.of_nat 2) with 2 in Hs.
  unfold maxNodes. rewrite height_is_levels.
  rewrite Z.pow_add_r, Z.pow_1_r by lia. lia.
Qed.

End Shape.

Section AnyComparison.
Context {T : Type} {less : Less T}.
Implicit Types (b c : BinaryTree T) (v x : T).

(** Whatever the comparison is, [insert] changes nothing or adds the one
    value somewhere in the in-order traversal, the other values staying in
    their order. *)
Theorem insert_adds_one v b :
  insert v b = b \/
  exists l1 l2, inorder b = l1 ++ l2 /\ inorder (insert v b) = l1 ++ v :: l2.
Proof.
  induction b as [x l r IHl IHr] using BinaryTree_ind.
  rewrite insert_eq.
  destruct (js_lt v x); [|destruct (js_lt x v)]; [| |by left].
  - destruct l as [c|]; cbn [from_option].
    + destruct (IHl c eq_refl) as [->|(l1 & l2 & E1 & E2)]; [by left|].
      right. exists l1, (l2 ++ x :: from_option inorder [] r).
      rewrite !inorder_eq. simpl. rewrite E1, E2, <- !app_assoc. done.
    + right. exists [], (x :: from_option inorder [] r).
      rewrite !inorder_eq. done.
  - destruct r as [c|]; cbn [from_option].
    + destruct (IHr c eq_refl) as [->|(l1 & l2 & E1 & E2)]; [by left|].
      right. exists (from_option inorder [] l ++ x :: l1), l2.
      rewrite !inorder_eq. simpl. rewrite E1, E2, <- !app_assoc. done.
    + right. exists (from_option inorder [] l ++ [x]), [].
      rewrite !inorder_eq. simpl. rewrite <- !app_assoc. done.
Qed.

(** When no value is less than itself, inserting a value a second time
    changes nothing, whatever the shape of the tree. *)
Theorem insert_twice v b :
  (forall a : T, js_lt a a = false) ->
  insert v (insert v b) = insert v b.
Proof.
  intros Hirr. induction b as [x l r IHl IHr] using BinaryTree_ind.
  rewrite (insert_eq v x l r).
  destruct (js_lt v x) eqn:Hvx; [|destruct (js_lt x v) eqn:Hxv].
  - rewrite insert_eq, Hvx. do 2 f_equal.
    destruct l as [c|]; simpl; [by apply IHl|]. by rewrite Hirr.
  - rewrite insert_eq, Hvx, Hxv. do 2 f_equal.
    destruct r as [c|]; simpl; [by apply IHr|]. by rewrite Hirr.
  - by rewrite insert_eq, Hvx, Hxv.
Qed.

Lemma levels_insert_ge v b :
  (Store.levels b <= Store.levels (insert v b))%nat.
Proof.
  induction b as [x l r IHl IHr] using BinaryTree_ind.
  rewrite insert_eq.
  destruct (js_lt v x); [|destruct (js_lt x v)]; simpl; [| |lia].
  - destruct l as [c|]; simpl; [|lia]. specialize (IHl c eq_refl). lia.
  - destruct r as [c|]; simpl; [|lia]. specialize (IHr c eq_refl). lia.
Qed.

(** [insert] never lowers [height()] and raises it by one at most. *)
Theorem insert_height v b :
  height b <= height (insert v b) <= height b + 1.
Proof.
  rewrite !height_is_levels.
  pose proof (levels_insert_ge v b).
  pose proof (StoreFacts.levels_insert v b). lia.
Qed.

End AnyComparison.

Lemma insert_twice_witness :
  insert 4 (insert 4 (build 5 [3; 7])) = insert 4 (build 5 [3; 7]).
Proof. apply (insert_twice 4 (build 5 [3; 7])). apply Z.ltb_irrefl. Defined.

Section Ordered.
Context {T : Type} {less : Less T} {order : StrictTotal T}.
Implicit Types (b c : BinaryTree T) (v x : T).

Lemma leftMost_minimum b x :
  BST b -> x ∈ inorder b ->
  x = value (leftMost b) \/ js_lt (value (leftMost b)) x = true.
Proof.
  intros Hb%BST_sorted. destruct (leftMost_inorder b) as [_ [rest E]].
  rewrite E in *. apply StronglySorted_cons in Hb as [Hall _].
  rewrite Forall_forall in Hall.
  intros [->|Hx]%elem_of_cons; [by left | right; by apply Hall].
Qed.

Lemma rightMost_maximum b x :
  BST b -> x ∈ inorder b ->
  x = value (rightMost b) \/ js_lt x (value (rightMost b)) = true.
Proof.
  intros Hb%BST_sorted. destruct (rightMost_inorder b) as [_ [rest E]].
  rewrite E in *. intros [Hx|Hx%list_elem_of_singleton]%elem_of_app.
  - right.
    apply (StronglySorted_app_1_elem_of _ _ _ _ _ Hb Hx).
    apply list_elem_of_singleton. done.
  - by left.
Qed.

(** After [new BinaryTree(v0)] and the insertion of [vs], [leftMost()]
    holds the least and [rightMost()] the greatest of the values
    [v0 :: vs]. *)
Theorem build_extremes (v0 : T) (vs : list T) :
  let t := build v0 vs in
  value (leftMost t) ∈ v0 :: vs /\
  value (rightMost t) ∈ v0 :: vs /\
  forall x, x ∈ v0 :: vs ->
    (x = value (leftMost t) \/ js_lt (value (leftMost t)) x = true) /\
    (x = value (rightMost t) \/ js_lt x (value (rightMost t)) = true).
Proof.
  destruct (build_from (BNode v0 None None) vs) as [Ht Hin]; [done|].
  fold (build v0 vs) in Ht, Hin. cbv zeta.
  assert (forall x, x ∈ inorder (build v0 vs) <-> x ∈ v0 :: vs) as Hin'.
  { intros x. rewrite Hin. simpl. rewrite !elem_of_cons, elem_of_nil. tauto. }
  split_and!.
  - apply Hin'. destruct (leftMost_inorder (build v0 vs)) as [_ [rest E]].
    rewrite E. left.
  - apply Hin'. destruct (rightMost_inorder (build v0 vs)) as [_ [rest E]].
    rewrite E, elem_of_app, list_elem_of_singleton. by right.
  - intros x Hx%Hin'. split.
    + by apply leftMost_minimum.
    + by apply rightMost_maximum.
Qed.

(** [invert()] breaks the BST invariant of every tree that has a
    child. *)
Theorem invert_breaks_BST b :
  BST b -> left b <> None \/ right b <> None -> ~ BST (invert b).
Proof.
  destruct b as [v l r]. rewrite BinaryTree_invert_eq, !BST_eq. simpl.
  intros ((Hl & Hr) & _) Hchild ((Hr' & Hl') & _).
  rewrite Forall_forall in Hl, Hr, Hl', Hr'.
  assert (forall c x, x ∈ inorder (invert c) <-> x ∈ inorder c) as Hin.
  { intros c x. rewrite inorder_invert, !list_elem_of_In.
    symmetry. apply in_rev. }
  assert (forall x, js_lt x v = true -> js_lt v x = true -> False) as Hasym.
  { intros x H1 H2. pose proof (js_lt_trans _ _ _ H1 H2) as H3.
    by rewrite js_lt_irrefl in H3. }
  destruct l as [c|]; simpl in *.
  - apply (Hasym (value c)).
    + apply Hl, value_in_inorder.
    + apply Hl', Hin, value_in_inorder.
  - destruct r as [c|]; simpl in *; [|by destruct Hchild].
    apply (Hasym (value c)).
    + apply Hr', Hin, value_in_inorder.
    + apply Hr, value_in_inorder.
Qed.

End Ordered.

Lemma build_extremes_witness :
  let t := build 5 [3; 7; 2; 4; 6] in
  value (leftMost t) ∈ 5 :: [3; 7; 2; 4; 6] /\
  value (rightMost t) ∈ 5 :: [3; 7; 2; 4; 6] /\
  forall x, x ∈ 5 :: [3; 7; 2; 4; 6] ->
    (x = value (leftMost t) \/ js_lt (value (leftMost t)) x = true) /\
    (x = value (rightMost t) \/ js_lt x (value (rightMost t)) = true).
Proof. exact (build_extremes (T := Z) 5 [3; 7; 2; 4; 6]). Defined.

Lemma invert_breaks_BST_witness : ~ BST (invert (build 5 [3])).
Proof.
  apply (invert_breaks_BST (T := Z) (build 5 [3])).
  - simpl. repeat split; repeat constructor.
  - left. discriminate.
Defined.

End BinaryTreeLaws.

(** ** search, inherited by BinaryTree *)

Module SearchLaws.
Import Tree TreeFacts BinaryTree BinaryTreeFacts.

Section Lookup.
Context {T : Type} `{EqDecision T}.

Lemma preorder_nullable (t : Tree T) :
  preorder (nullable t) = map Some (preorder t).
Proof.
  induction t as [v cs IH] using Tree_ind.
  simpl nullable. rewrite !preorder_eq. simpl map. f_equal.
  induction IH as [|c cs Hc _ IHcs]; [done|].
  simpl. rewrite map_app, <- IHcs. f_equal.
  destruct c as [c|]; simpl; done.
Qed.

Lemma preorder_as_Tree (b : BinaryTree T) x :
  x ∈ preorder (as_Tree b) <-> x ∈ inorder b.
Proof.
  induction b as [v l r IHl IHr] using BinaryTree_ind.
  simpl as_Tree. rewrite preorder_eq, inorder_eq. simpl flat_map.
  rewrite app_nil_r, elem_of_cons, !elem_of_app, elem_of_cons.
  destruct l as [cl|], r as [cr|]; simpl;
    rewrite ?(IHl _ eq_refl), ?(IHr _ eq_refl), ?elem_of_nil; tauto.
Qed.

Lemma search_value_iff (b : BinaryTree T) (v : T) :
  search (fun x => bool_decide (x = Some v)) (nullable (as_Tree b)) = Some v
  <-> v ∈ inorder b.
Proof.
  rewrite search_null_free.
  2:{ rewrite preorder_nullable. apply Forall_fmap, Forall_forall.
      intros x _. by eexists. }
  unfold first_preorder_match. rewrite preorder_nullable.
  rewrite <- preorder_as_Tree.
  destruct (find _ _) as [x|] eqn:E.
  - apply find_some in E as [Hin Hx]. apply bool_decide_eq_true in Hx.
    subst x. split; [intros _|done].
    apply list_elem_of_In, list_elem_of_fmap in Hin as (y & [= ->] & Hy).
    done.
  - split; [done|]. intros Hin.
    assert (In (Some v) (map Some (preorder (as_Tree b)))) as Hin'.
    { apply list_elem_of_In, list_elem_of_fmap. by exists v. }
    pose proof (find_none _ _ E _ Hin') as Hv.
    by rewrite bool_decide_eq_false in Hv.
Qed.

(** [search] for "equal to [v]" on a BinaryTree returns [v] exactly when
    [v] is the value of one of its nodes. *)
Theorem search_finds_value (b : BinaryTree T) (v : T) :
  search (fun x => bool_decide (x = Some v)) (nullable (as_Tree b)) = Some v
  <-> v ∈ inorder b.
Proof. apply search_value_iff. Qed.

(** After [new BinaryTree(v0)] and the insertion of [vs], [search] finds
    exactly the values [v0 :: vs]. *)
Theorem search_after_build {less : Less T} {order : StrictTotal T}
  (v0 : T) (vs : list T) (v : T) :
  search (fun x => bool_decide (x = Some v))
    (nullable (as_Tree (build v0 vs))) = Some v
  <-> v ∈ v0 :: vs.
Proof.
  rewrite search_value_iff.
  destruct (build_from (BNode v0 None None) vs) as [_ Hin]; [done|].
  fold (build v0 vs) in Hin. rewrite Hin. simpl.
  rewrite !elem_of_cons, elem_of_nil. tauto.
Qed.

End Lookup.

Lemma search_after_build_witness :
  search (fun x => bool_decide (x = Some 4))
    (nullable (as_Tree (build 5 [3; 7; 2; 4; 6]))) = Some 4
  <-> 4 ∈ 5 :: [3; 7; 2; 4; 6].
Proof. exact (search_after_build (T := Z) 5 [3; 7; 2; 4; 6] 4). Defined.

End SearchLaws.

(** ** The setters and [insert] on the objects *)

Module StoreLaws.
Import Store StoreFacts.

Section Setters.
Context {T : Type}.
Implicit Types (σ : gmap loc (object T)) (this c : loc) (v : option loc).

Lemma lookup_after_parent this v σ o :
  σ !! this = Some o ->
  exists o',
    match v with
    | Some c => alter (write_parent this) c σ
    | None => σ
    end !! this = Some o' /\ children o' = children o.
Proof.
  intros Ho. destruct v as [c|]; [|by exists o].
  destruct (decide (c = this)) as [->|Hne].
  - rewrite lookup_alter_eq, Ho. by eexists.
  - rewrite lookup_alter_ne, Ho by done. by eexists.
Qed.

(** A setter writes its own slot and leaves the other one: reading
    [left] after assigning it gives what was assigned, and [right] is as
    before; the same with the two exchanged. *)
Theorem setters_write_one_slot this v σ o l r :
  σ !! this = Some o -> children o = [l; r] ->
  get_left this (set_left this v σ) = Some v /\
  get_right this (set_left this v σ) = Some r /\
  get_right this (set_right this v σ) = Some v /\
  get_left this (set_right this v σ) = Some l.
Proof.
  intros Ho Hlr.
  destruct (lookup_after_parent this v σ o Ho) as (o' & Ho' & Hc).
  unfold get_left, get_right, slot, set_left, set_right.
  rewrite !lookup_alter_eq, Ho'. simpl. rewrite Hc, Hlr. done.
Qed.

(** A setter does not detach the child it replaces: once [c] is assigned
    to [left], assigning anything else to [left] leaves [c.parent] as it
    is, while [c] is not the left child any more.  The same for
    [right]. *)
Theorem setters_keep_old_back_reference this c v σ o l r :
  σ !! this = Some o -> children o = [l; r] ->
  is_Some (σ !! c) -> v <> Some c ->
  parent_of c (set_left this v (set_left this (Some c) σ)) = Some this /\
  get_left this (set_left this v (set_left this (Some c) σ)) = Some v /\
  parent_of c (set_right this v (set_right this (Some c) σ)) = Some this /\
  get_right this (set_right this v (set_right this (Some c) σ)) = Some v.
Proof.
  intros Ho Hlr Hc Hv.
  destruct (lookup_after_parent this (Some c) σ o Ho) as (o1 & Ho1 & Hc1).
  assert (exists o2, set_left this (Some c) σ !! this = Some o2 /\
                     length (children o2) = 2%nat) as (o2 & Ho2 & Hlen2).
  { unfold set_left. rewrite lookup_alter_eq, Ho1. eexists. split; [done|].
    simpl. rewrite length_insert, Hc1, Hlr. done. }
  assert (exists o3, set_right this (Some c) σ !! this = Some o3 /\
                     length (children o3) = 2%nat) as (o3 & Ho3 & Hlen3).
  { unfold set_right. rewrite lookup_alter_eq, Ho1. eexists. split; [done|].
    simpl. rewrite length_insert, Hc1, Hlr. done. }
  split_and!.
  - rewrite set_left_parent_of_other by done. by apply set_left_parent_of.
  - eapply set_left_slot; [exact Ho2 | lia].
  - rewrite set_right_parent_of_other by done. by apply set_right_parent_of.
  - eapply set_right_slot; [exact Ho3 | lia].
Qed.

End Setters.

Lemma setters_write_one_slot_witness :
  let σ : gmap loc (object Z) := {[ 0%nat := Object 5 [None; Some 7%nat] None ]} in
  get_left 0%nat (set_left 0%nat (Some 3%nat) σ) = Some (Some 3%nat) /\
  get_right 0%nat (set_left 0%nat (Some 3%nat) σ) = Some (Some 7%nat) /\
  get_right 0%nat (set_right 0%nat (Some 3%nat) σ) = Some (Some 3%nat) /\
  get_left 0%nat (set_right 0%nat (Some 3%nat) σ) = Some None.
Proof.
  intros σ.
  apply (setters_write_one_slot 0%nat (Some 3%nat) σ
           (Object 5 [None; Some 7%nat] None) None (Some 7%nat));
    reflexivity.
Defined.

Lemma setters_keep_old_back_reference_witness :
  let σ : gmap loc (object Z) :=
    {[ 0%nat := Object 5 [None; None] None;
       1%nat := Object 3 [None; None] None ]} in
  parent_of 1%nat (set_left 0%nat None (set_left 0%nat (Some 1%nat) σ))
    = Some 0%nat /\
  get_left 0%nat (set_left 0%nat None (set_left 0%nat (Some 1%nat) σ)) = Some None /\
  parent_of 1%nat (set_right 0%nat None (set_right 0%nat (Some 1%nat) σ))
    = Some 0%nat /\
  get_right 0%nat (set_right 0%nat None (set_right 0%nat (Some 1%nat) σ))
    = Some None.
Proof.
  intros σ.
  apply (setters_keep_old_back_reference 0%nat 1%nat None σ
           (Object 5 [None; None] None) None None).
  - reflexivity.
  - reflexivity.
  - exists (Object 3 [None; None] None). reflexivity.
  - discriminate.
Defined.

Section Insert.
Context {T : Type} {less : Less T}.

(** [insert] on the objects of a tree, with fuel for its levels: the call
    completes normally; the objects then are the tree after
    [BinaryTree.insert], every child referring back to its parent; the
    locations that are new were unallocated; no object outside the tree is
    touched; [this.parent] is as before. *)
Theorem insert_on_objects (b : BinaryTree.BinaryTree T)
  (σ : gmap loc (object T)) (this : loc) (D : gset loc) (v : T) (fuel : nat) :
  repr σ b this D -> (levels b <= fuel)%nat ->
  exists σ' D',
    insert fuel v this σ = Some (Normal tt, σ') /\
    repr σ' (BinaryTree.insert v b) this D' /\
    D ⊆ D' /\
    (forall k, k ∈ D' -> k ∉ D -> σ !! k = None) /\
    (forall k, k ∉ D' -> σ' !! k = σ !! k) /\
    parent_of this σ' = parent_of this σ.
Proof. apply insert_refines. Qed.

End Insert.

Lemma insert_on_objects_witness :
  let σ : gmap loc (object Z) := {[ 0%nat := Object 5 [None; None] None ]} in
  exists σ' D',
    insert 1 3 0%nat σ = Some (Normal tt, σ') /\
    repr σ' (BinaryTree.insert 3 (BinaryTree.BNode 5 None None)) 0%nat D' /\
    {[0%nat]} ⊆ D' /\
    (forall k, k ∈ D' -> k ∉ ({[0%nat]} : gset loc) -> σ !! k = None) /\
    (forall k, k ∉ D' -> σ' !! k = σ !! k) /\
    parent_of 0%nat σ' = parent_of 0%nat σ.
Proof.
  intros σ.
  apply (insert_on_objects (BinaryTree.BNode 5 None None) σ 0%nat
           {[0%nat]} 3 1).
  - eapply leaf_repr. reflexivity.
  - simpl. lia.
Defined.

End StoreLaws.

(** ** Nodes with leaf children, and the family of [example.ts] *)

Module ExampleLaws.
Import Tree TreeFacts TreeLaws Example.

Section Leaves.
Context {V : Type} `{DefaultString V}.

Lemma replace_LF_absent (by_ s : string) :
  count_LF s = 0%nat -> replace_LF by_ s = s.
Proof.
  induction s as [|x s IH]; simpl; [done|].
  destruct (Ascii.eqb x (ascii_of_nat 10)); [done|].
  intros Hs. by rewrite IH.
Qed.

Lemma toString_loop_leaves (outs : list string) : forall len i output,
  (i + length outs = len)%nat ->
  Forall (fun o => count_LF o = 0%nat) outs ->
  toString_loop len i outs output = String.append output (leaf_lines outs).
Proof.
  induction outs as [|o outs IH]; intros len i output Hlen Hall.
  - simpl. by rewrite append_empty_r.
  - apply Forall_cons_1 in Hall as [Ho Hall].
    change (toString_loop len i (o :: outs) output)
      with (toString_loop len (S i) outs
              (String.append output
                 (String.append LF (branch (Nat.eqb i (len - 1)) o)))).
    unfold branch. rewrite (replace_LF_absent _ o Ho).
    simpl in Hlen. destruct outs as [|o' outs].
    + replace (Nat.eqb i (len - 1)) with true
        by (symmetry; apply Nat.eqb_eq; simpl in Hlen; lia).
      simpl toString_loop. done.
    + replace (Nat.eqb i (len - 1)) with false
        by (symmetry; apply Nat.eqb_neq; simpl in Hlen; lia).
      rewrite IH by (done || (simpl; simpl in Hlen; lia)).
      change (leaf_lines (o :: o' :: outs))
        with (String.append LF
                (String.append "├─"
                   (String.append o (leaf_lines (o' :: outs))))).
      by rewrite !append_assoc.
Qed.

Lemma add_all (ws : list V) : forall v cs,
  fold_left (fun t w => add w t) ws (Node v cs) =
  Node v (cs ++ map (fun w => Some (Node w [])) ws).
Proof.
  induction ws as [|w ws IH]; intros v cs; simpl.
  - by rewrite app_nil_r.
  - by rewrite IH, <- app_assoc.
Qed.

Lemma leaf_outputs (ws : list V) :
  omap (fun child => toString None <$> child)
    (map (fun w => Some (Node w [])) ws) = map default_string ws.
Proof. induction ws as [|w ws IH]; [done|]. simpl. f_equal. exact IH. Qed.

Lemma toString_leaves predicate (v : V) (ws : list V) :
  Forall (fun w => count_LF (default_string w) = 0%nat) ws ->
  toString predicate (Node v (map (fun w => Some (Node w [])) ws)) =
  String.append
    (match predicate with Some p => p v | None => default_string v end)
    (leaf_lines (map default_string ws)).
Proof.
  intros Hws. rewrite toString_eq, leaf_outputs. cbv zeta.
  destruct ws as [|w ws].
  - simpl. by rewrite append_empty_r.
  - change (Nat.eqb (length (map default_string (w :: ws))) 0) with false.
    cbv iota. apply toString_loop_leaves; [done|]. by apply Forall_fmap.
Qed.

(** A node to which the values [ws] are added renders as its value, then
    one line ["├─w"] for each added value but the last, whose line is
    ["└─w"], when no string of an added value has a line feed. *)
Theorem toString_after_adds predicate (v : V) (ws : list V) :
  Forall (fun w => count_LF (default_string w) = 0%nat) ws ->
  toString predicate (fold_left (fun t w => add w t) ws (Node v [])) =
  String.append
    (match predicate with Some p => p v | None => default_string v end)
    (leaf_lines (map default_string ws)).
Proof. intros Hws. rewrite add_all. by apply toString_leaves. Qed.

End Leaves.

Lemma toString_after_adds_witness :
  toString None (fold_left (fun t w => add w t) [3; 7; 2] (Node 5 [])) =
  "5
├─3
├─7
└─2"%string.
Proof.
  refine (toString_after_adds None 5 [3; 7; 2] _).
  apply Forall_forall. intros w _. apply count_LF_integer.
Defined.

Lemma Family_adds (kids : list Person) : forall f,
  super (fold_left (fun f c => Family_add c f) kids f) =
    fold_left (fun t c => add c t) kids (super f) /\
  father (fold_left (fun f c => Family_add c f) kids f) = father f.
Proof.
  induction kids as [|c kids IH]; intros f; [done|].
  simpl fold_left. destruct (IH (Family_add c f)) as [-> ->].
  unfold Family_add. destruct (super f) as [x cs]. done.
Qed.

(** The renderer that [Family.toString()] passes is the conversion the
    tree uses anyway: the output is the father, a line ["| "], and the
    [toString()] of the tree. *)
Theorem Family_toString_default (f : Family) :
  Family_toString f =
  String.append (Person_toString (father f))
    (String.append LF
       (String.append "| "
          (String.append LF (toString None (super f))))).
Proof.
  unfold Family_toString. do 4 f_equal.
  by apply (toString_renderer_at_root _ (fun c => Person_toString c)).
Qed.

(** A family made by [new Family(mother, father)] and [add] of the
    children prints the father, a line ["| "], the mother, and one line for
    each child, when no name has a line feed. *)
Theorem Family_toString_children (mother father : Person)
  (kids : list Person) :
  Forall (fun c => count_LF (Person_toString c) = 0%nat) kids ->
  Family_toString
    (fold_left (fun f c => Family_add c f) kids
       (new_Family mother father None)) =
  String.append (Person_toString father)
    (String.append LF
       (String.append "| "
          (String.append LF
             (String.append (Person_toString mother)
                (leaf_lines (map Person_toString kids)))))).
Proof.
  intros Hkids. unfold Family_toString.
  destruct (Family_adds kids (new_Family mother father None)) as [-> ->].
  simpl super. simpl Example.father. do 4 f_equal.
  rewrite add_all. by apply toString_leaves.
Qed.

Lemma Family_toString_children_witness :
  Family_toString
    (fold_left (fun f c => Family_add c f)
       [new_Person "Alice" "Doe" 5; new_Person "Bob" "Doe" 3]
       (new_Family (new_Person "Jane" "Doe" 30) (new_Person "John" "Doe" 32)
          None)) =
  "John Doe
| 
Jane Doe
├─Alice Doe
└─Bob Doe"%string.
Proof.
  refine (Family_toString_children
            (new_Person "Jane" "Doe" 30) (new_Person "John" "Doe" 32)
            [new_Person "Alice" "Doe" 5; new_Person "Bob" "Doe" 3] _).
  repeat constructor.
Defined.

End ExampleLaws.

(** ** toString against the rendering rule of the spec *)

Module RenderingLaws.
Import Tree TreeFacts TreeLaws ExampleLaws.

Section Lines.

Lemma split_lines_cons (s : string) : exists l ls, split_lines s = l :: ls.
Proof.
  destruct s as [|c s]; simpl; [by eexists _, _|].
  destruct (Ascii.eqb c (ascii_of_nat 10)); [by eexists _, _|].
  destruct (split_lines s); by eexists _, _.
Qed.

Lemma lines_after_cons (l : string) (ls : list string) :
  lines_after (l :: ls) = String.append LF (join_lines (l :: ls)).
Proof. reflexivity. Qed.

Lemma join_split (s : string) : join_lines (split_lines s) = s.
Proof.
  induction s as [|c s IH]; [done|]. simpl split_lines.
  destruct (split_lines_cons s) as (l & ls & E). rewrite E in *.
  destruct (Ascii.eqb c (ascii_of_nat 10)) eqn:Hc.
  - apply Ascii.eqb_eq in Hc. subst c.
    unfold join_lines. rewrite lines_after_cons, IH. reflexivity.
  - unfold join_lines in *.
    change (String c (String.append l (lines_after ls)) = String c s).
    by rewrite IH.
Qed.

Lemma split_lines_no_LF (s : string) :
  Forall (fun l => count_LF l = 0%nat) (split_lines s).
Proof.
  induction s as [|c s IH]; simpl; [by repeat constructor|].
  destruct (Ascii.eqb c (ascii_of_nat 10)) eqn:Hc; [by constructor|].
  destruct (split_lines s) as [|l ls]; [repeat constructor; simpl; by rewrite Hc|].
  apply Forall_cons_1 in IH as [Hl Hls]. constructor; [|done].
  simpl. by rewrite Hc.
Qed.

Lemma replace_LF_after_line (by_ l s : string) :
  count_LF l = 0%nat ->
  replace_LF by_ (String.append l s) = String.append l (replace_LF by_ s).
Proof.
  induction l as [|c l IH]; [done|]. simpl count_LF.
  change (String.append (String c l) s) with (String c (String.append l s)).
  simpl replace_LF.
  destruct (Ascii.eqb c (ascii_of_nat 10)); [done|]. intros Hl.
  rewrite IH by done. reflexivity.
Qed.

Lemma replace_LF_lines_after (other : string) (ls : list string) :
  Forall (fun l => count_LF l = 0%nat) ls ->
  replace_LF (String.append LF other) (lines_after ls) =
  lines_after (map (String.append other) ls).
Proof.
  induction 1 as [|l ls Hl _ IH]; [done|].
  change (lines_after (l :: ls))
    with (String (ascii_of_nat 10) (String.append l (lines_after ls))).
  simpl replace_LF. rewrite replace_LF_after_line, IH by done.
  simpl map. simpl lines_after. by rewrite !append_assoc.
Qed.

(** [branch] on a block given by its lines is the spec's prefixing of the
    first and of the subsequent lines. *)
Lemma branch_join (lastChild : bool) (block : list string) :
  block <> [] -> Forall (fun l => count_LF l = 0%nat) block ->
  branch lastChild (join_lines block) =
  join_lines
    (prefix_block (if lastChild then "└─" else "├─")
       (if lastChild then "  " else "│ ") block).
Proof.
  destruct block as [|l ls]; [done|]. intros _ [Hl Hls]%Forall_cons_1.
  unfold branch, join_lines, prefix_block.
  rewrite replace_LF_after_line, replace_LF_lines_after by done.
  by rewrite append_assoc.
Qed.

Lemma lines_after_app (a b : list string) :
  lines_after (a ++ b) = String.append (lines_after a) (lines_after b).
Proof.
  induction a as [|l a IH]; [done|]. simpl. rewrite IH.
  by rewrite !append_assoc.
Qed.

Lemma join_lines_app (a b : list string) :
  a <> [] ->
  join_lines (a ++ b) = String.append (join_lines a) (lines_after b).
Proof.
  destruct a as [|l a]; [done|]. intros _. unfold join_lines. simpl.
  by rewrite lines_after_app, append_assoc.
Qed.

Lemma prefix_block_no_LF (first other : string) (block : list string) :
  count_LF first = 0%nat -> count_LF other = 0%nat ->
  Forall (fun l => count_LF l = 0%nat) block ->
  Forall (fun l => count_LF l = 0%nat) (prefix_block first other block).
Proof.
  intros Hf Ho [|l ls Hl Hls]; [constructor|]. simpl. constructor.
  - rewrite count_LF_append. lia.
  - apply Forall_fmap. eapply Forall_impl; [exact Hls|].
    intros x Hx. cbv beta in Hx. simpl. rewrite count_LF_append. lia.
Qed.

End Lines.

Section Rule.
Context {V : Type} `{DefaultString V}.
Implicit Types (t : Tree V) (cs : list (option (Tree V))).

Lemma rendered_lines_eq (root descendant : V -> string) v cs :
  rendered_lines root descendant (Node v cs) =
  split_lines (root v) ++ child_blocks descendant cs.
Proof. reflexivity. Qed.

Lemma child_blocks_no_LF (descendant : V -> string) cs :
  Forall (fun c => match c with
                   | Some t =>
                       Forall (fun l => count_LF l = 0%nat)
                         (rendered_lines descendant descendant t)
                   | None => True
                   end) cs ->
  Forall (fun l => count_LF l = 0%nat) (child_blocks descendant cs).
Proof.
  induction 1 as [|c cs Hc _ IH]; [constructor|].
  destruct c as [c|]; [|exact IH].
  change (child_blocks descendant (Some c :: cs))
    with (prefix_block
            (if match present cs with [] => true | _ => false end
             then "└─" else "├─")
            (if match present cs with [] => true | _ => false end
             then "  " else "│ ")
            (rendered_lines descendant descendant c)
          ++ child_blocks descendant cs).
  apply Forall_app. split; [|exact IH].
  apply prefix_block_no_LF; [| |exact Hc];
    by destruct (present cs).
Qed.

(** The lines of the rule hold no line feed, and there is at least
    one. *)
Lemma rendered_lines_no_LF (root descendant : V -> string) t :
  Forall (fun l => count_LF l = 0%nat) (rendered_lines root descendant t) /\
  rendered_lines root descendant t <> [].
Proof.
  revert root. induction t as [v cs IH] using Tree_ind. intros root.
  rewrite rendered_lines_eq. split.
  - apply Forall_app. split; [apply split_lines_no_LF|].
    apply child_blocks_no_LF. eapply Forall_impl; [exact IH|].
    intros [c|] Hc; [|done]. apply Hc.
  - destruct (split_lines_cons (root v)) as (l & ls & ->). done.
Qed.

Lemma omap_length_present {B} (f : Tree V -> B) cs :
  length (omap (fun child => f <$> child) cs) = length (present cs).
Proof.
  unfold present. induction cs as [|[c|] cs IH]; simpl; [done| |exact IH].
  f_equal. exact IH.
Qed.

(** The loop of [toString] appends the blocks of the rule, when the
    output of every child is what the rule gives for it. *)
Lemma toString_loop_blocks (len : nat) cs : forall i output,
  Forall (fun c => match c with
                   | Some t =>
                       toString None t =
                       join_lines
                         (rendered_lines default_string default_string t)
                   | None => True
                   end) cs ->
  (i + length (present cs) = len)%nat ->
  toString_loop len i (omap (fun child => toString None <$> child) cs) output =
  String.append output (lines_after (child_blocks default_string cs)).
Proof.
  induction cs as [|c cs IH]; intros i output Hcs Hlen.
  - simpl. by rewrite append_empty_r.
  - apply Forall_cons_1 in Hcs as [Hc Hcs]. destruct c as [c|].
    + change (omap (fun child => toString None <$> child) (Some c :: cs))
        with (toString None c ::
              omap (fun child => toString None <$> child) cs).
      change (child_blocks default_string (Some c :: cs))
        with (prefix_block
                (if match present cs with [] => true | _ => false end
                 then "└─" else "├─")
                (if match present cs with [] => true | _ => false end
                 then "  " else "│ ")
                (rendered_lines default_string default_string c)
              ++ child_blocks default_string cs).
      change (present (Some c :: cs)) with (c :: present cs) in Hlen.
      simpl length in Hlen.
      change (toString_loop len i (toString None c :: ?outs) output)
        with (toString_loop len (S i) outs
                (String.append output
                   (String.append LF
                      (branch (Nat.eqb i (len - 1)) (toString None c))))).
      destruct (rendered_lines_no_LF default_string default_string c)
        as [Hno Hne].
      assert (Nat.eqb i (len - 1) =
              match present cs with [] => true | _ => false end) as ->.
      { destruct (present cs); simpl in Hlen.
        - apply Nat.eqb_eq. lia.
        - apply Nat.eqb_neq. lia. }
      rewrite Hc, branch_join by done.
      rewrite IH by (done || lia).
      rewrite lines_after_app.
      set (block := prefix_block _ _ _).
      assert (lines_after block = String.append LF (join_lines block)) as ->.
      { subst block.
        destruct (rendered_lines default_string default_string c); done. }
      by rewrite !append_assoc.
    + apply IH; done.
Qed.

Lemma toString_rule predicate t :
  toString predicate t =
  join_lines
    (rendered_lines
       (match predicate with Some p => p | None => default_string end)
       default_string t).
Proof.
  revert predicate. induction t as [v cs IH] using Tree_ind.
  intros predicate. rewrite toString_eq, rendered_lines_eq. cbv zeta.
  rewrite join_lines_app, join_split
    by (destruct (split_lines_cons
                    (match predicate with
                     | Some p => p
                     | None => default_string
                     end v)) as (l & ls & ->); done).
  assert (Forall (fun c => match c with
                           | Some t =>
                               toString None t =
                               join_lines
                                 (rendered_lines default_string
                                    default_string t)
                           | None => True
                           end) cs) as Hcs.
  { eapply Forall_impl; [exact IH|]. intros [c|] Hc; [|done].
    apply (Hc None). }
  rewrite <- (toString_loop_blocks
                (length (omap (fun child => toString None <$> child) cs))
                cs 0 _ Hcs)
    by (by rewrite omap_length_present).
  destruct (omap (fun child => toString None <$> child) cs) as [|o outs].
  - destruct predicate; reflexivity.
  - change (Nat.eqb (length (o :: outs)) 0) with false. cbv iota.
    destruct predicate; reflexivity.
Qed.

(** C7: for every tree and every renderer, [toString(renderer)] is the
    output of the rendering rule in which the renderer gives the lines of
    the root value only and the default string conversion gives the line
    of every descendant; without a renderer the default conversion gives
    the root's lines as well.  So the two outputs differ in the rendering
    of the root value and nowhere else. *)
Theorem toString_renderer_root_only (renderer : V -> string) t :
  toString (Some renderer) t =
    join_lines (rendered_lines renderer default_string t) /\
  toString None t =
    join_lines (rendered_lines default_string default_string t).
Proof.
  split.
  - apply (toString_rule (Some renderer)).
  - apply (toString_rule None).
Qed.

End Rule.

(** The rule on the example tree of [toString], and with a renderer that
    the descendants do not see. *)
Example rendered_lines_example :
  rendered_lines (fun n : Z => String.append "#" (default_string n))
    default_string example_tree =
  [ "#5"; "├─3"; "│ ├─1"; "│ └─6"; "├─7"; "│ └─8"; "├─2"; "└─4" ]%string.
Proof. reflexivity. Qed.

End RenderingLaws.
